(** * go-stash: an in-memory cache with TTL expiration and a sweeper

    A shallow embedding of [cache.go], [cache_impl.go] and
    [cache_worker.go].  Every method is written as a program over the
    primitive actions the Go code performs (mutex calls, map accesses,
    clock reads, log lines).  The programs are given a sequential
    semantics ([run]) and an interleaving semantics ([step]). *)

From stdpp Require Import gmap strings list fin_maps.

Local Open Scope Z_scope.

(** ** package time

    A [Time] is an instant on one time line, counted in nanoseconds from
    the zero instant of Go's [time.Time] (the value of an unset
    [time.Time] variable).  A [Duration] is a signed count of
    nanoseconds. *)
Module time.
Definition Time : Type := Z.
Definition Duration : Type := Z.

(** [var t time.Time] *)
Definition zero : Time := 0.
(** [t.IsZero()] *)
Definition IsZero (t : Time) : bool := bool_decide (t = 0).
(** [t.After(u)] *)
Definition After (t u : Time) : bool := bool_decide (u < t).
(** [t.Add(d)] *)
Definition Add (t : Time) (d : Duration) : Time := t + d.
End time.

(** ** package sync: the state of a [sync.RWMutex] *)
Record RWMutex : Type := { writer : bool; readers : nat }.

Definition unlocked : RWMutex := {| writer := false; readers := 0 |}.

Section Cache.

(** Payloads are opaque to the cache. *)
Context {V : Type}.

(** A value of Go type [any]: the nil interface or a boxed payload. *)
Inductive any : Type :=
| anyNil
| anyVal (v : V).

(** [type cachedItem struct { value any; expiration time.Time }] *)
Record cachedItem : Type := { value : any; expiration : time.Time }.

(** [type inMemoryCache struct { mu sync.RWMutex; items map[string]cachedItem }] *)
Record inMemoryCache : Type :=
  { mu : RWMutex; items : gmap string cachedItem }.

(** A value of the interface type [Cache]: the nil interface, the pointer
    to the store as [NewCache] returns it, or a value of some other
    implementing type (named by its dynamic type). *)
Inductive Cache : Type :=
| Cache_nil
| Cache_inMemoryCache
| Cache_other (dynamicType : string).

(** [func NewCache() Cache]: the store it allocates. *)
Definition NewCache : inMemoryCache :=
  {| mu := unlocked; items := ∅ |}.

(** What a program runs against: the wall clock, the store behind
    [*inMemoryCache], and the lines written to the standard logger. *)
Record World : Type :=
  { clock : time.Time; mem : inMemoryCache; logged : list string }.

Definition with_mu (l : RWMutex) (w : World) : World :=
  {| clock := clock w;
     mem := {| mu := l; items := items (mem w) |};
     logged := logged w |}.

Definition with_items (m : gmap string cachedItem) (w : World) : World :=
  {| clock := clock w;
     mem := {| mu := mu (mem w); items := m |};
     logged := logged w |}.

Definition with_logged (l : list string) (w : World) : World :=
  {| clock := clock w; mem := mem w; logged := l |}.

(** ** Primitive actions *)
Inductive Act : Type → Type :=
| Now : Act time.Time                         (* time.Now() *)
| Lock : Act unit                             (* c.mu.Lock() *)
| Unlock : Act unit                           (* c.mu.Unlock() *)
| RLock : Act unit                            (* c.mu.RLock() *)
| RUnlock : Act unit                          (* c.mu.RUnlock() *)
| MapGet (key : string) : Act (option cachedItem)     (* item, ok := c.items[key] *)
| MapSet (key : string) (item : cachedItem) : Act unit (* c.items[key] = item *)
| MapDelete (key : string) : Act unit         (* delete(c.items, key) *)
| MapMake : Act unit                          (* c.items = make(map[string]cachedItem) *)
| MapRange : Act (list string)                (* the keys, in the order range visits them *)
| Println (line : string) : Act unit          (* log.Println / log.Printf *)
| Panic (reason : string) : Act Empty_set.    (* panic(reason) *)

(** ** Programs: trees of actions *)
Inductive Prog (A : Type) : Type :=
| Ret (a : A)
| Vis {R : Type} (e : Act R) (k : R → Prog A).
Arguments Ret {A} a.
Arguments Vis {A R} e k.

Fixpoint bind {A B : Type} (p : Prog A) (f : A → Prog B) : Prog B :=
  match p with
  | Ret a => f a
  | Vis e k => Vis e (λ r, bind (k r) f)
  end.

#[export] Instance Prog_ret : MRet Prog := λ A a, Ret a.
#[export] Instance Prog_bind : MBind Prog := λ A B f p, bind p f.

Definition act {R : Type} (e : Act R) : Prog R := Vis e Ret.

(** [defer d] placed before [body]: [d] runs when [body] has finished. *)
Definition deferring {A : Type} (d : Prog unit) (body : Prog A) : Prog A :=
  r ← body; d;; Ret r.

(** [for _, x := range xs { body x }] over a slice of keys. *)
Fixpoint forEach {X : Type} (xs : list X) (body : X → Prog unit) : Prog unit :=
  match xs with
  | [] => Ret tt
  | x :: rest => body x;; forEach rest body
  end.

(** ** cache_impl.go *)

(** [func (ci cachedItem) isExpired() bool] *)
Definition isExpired (ci : cachedItem) : Prog bool :=
  if time.IsZero (expiration ci) then Ret false
  else now ← act Now; Ret (time.After now (expiration ci)).

(** [func (c *inMemoryCache) Delete(key string)] *)
Definition Delete (key : string) : Prog unit :=
  act Lock;;
  deferring (act Unlock)
    (act (MapDelete key)).

(** [func (c *inMemoryCache) Get(key string) (any, bool)] *)
Definition Get (key : string) : Prog (any * bool) :=
  act RLock;;
  r ← act (MapGet key);
  act RUnlock;;
  match r with
  | None => Ret (anyNil, false)
  | Some item =>
      e ← isExpired item;
      if e : bool then Delete key;; Ret (anyNil, false)
      else Ret (value item, true)
  end.

(** [func (c *inMemoryCache) SetWithTTL(key string, value any, ttl time.Duration)] *)
Definition SetWithTTL (key : string) (val : any) (ttl : time.Duration) : Prog unit :=
  act Lock;;
  deferring (act Unlock)
    (exp ← (if bool_decide (0 < ttl)
            then now ← act Now; Ret (time.Add now ttl)
            else Ret time.zero);
     act (MapSet key {| value := val; expiration := exp |})).

(** [func (c *inMemoryCache) Set(key string, value any)]
    ([Set] is a reserved word, hence the name). *)
Definition Set_ (key : string) (val : any) : Prog unit :=
  SetWithTTL key val 0.

(** [func (c *inMemoryCache) Clear()] *)
Definition Clear : Prog unit :=
  act Lock;;
  deferring (act Unlock)
    (act MapMake).

(** ** cache_worker.go *)

(** The test of the sweep loop:
    [!item.expiration.IsZero() && now.After(item.expiration)] *)
Definition sweepable (now : time.Time) (item : cachedItem) : bool :=
  negb (time.IsZero (expiration item)) && time.After now (expiration item).

(** The body of the range loop of [cleanupCache], at one key.  A key that
    is gone by the time the loop reaches it is not produced. *)
Definition sweepBody (now : time.Time) (key : string) : Prog unit :=
  r ← act (MapGet key);
  match r with
  | None => Ret tt
  | Some item =>
      if sweepable now item
      then act (MapDelete key);;
           act (Println ("Cache worker: deleted expired key: " +:+ key))
      else Ret tt
  end.

(** [func cleanupCache(cache Cache)].  The range loop visits the keys in
    the order [MapRange] hands out. *)
Definition cleanupCache (cache : Cache) : Prog unit :=
  match cache with
  | Cache_inMemoryCache =>
      now ← act Now;
      act Lock;;
      deferring (act Unlock)
        (keys ← act MapRange;
         forEach keys (sweepBody now))
  | _ =>
      act (Println "Cache worker: cache type is not *inMemoryCache, skipping cleanup")
  end.

(** The case a [select] of the worker loop takes. *)
Inductive selected : Type :=
| ctxDone      (* <-ctx.Done() *)
| stopCh       (* <-cfg.StopCh *)
| tickerC.     (* <-ticker.C *)

(** The [for { select { ... } }] loop, along the cases its selects take;
    when the list ends the loop is still waiting. *)
Fixpoint workerLoop (cache : Cache) (sel : list selected) : Prog unit :=
  match sel with
  | [] => Ret tt
  | ctxDone :: _ =>
      act (Println "Cache worker: context done, stopping worker")
  | stopCh :: _ =>
      act (Println "Cache worker: stop channel signaled, stopping worker")
  | tickerC :: rest =>
      cleanupCache cache;; workerLoop cache rest
  end.

(** [func StartCacheWorker(ctx context.Context, cfg CacheWorkerConfig)];
    [time.NewTicker] panics on a non-positive interval. *)
Definition StartCacheWorker (cache : Cache) (interval : time.Duration)
    (sel : list selected) : Prog unit :=
  if bool_decide (interval ≤ 0)
  then Vis (Panic "non-positive interval for NewTicker") (λ r, match r with end)
  else act (Println "Cache worker started");;
       workerLoop cache sel.

(** ** Sequential semantics *)

(** A call returns, waits for the mutex forever, or dies in a runtime
    fatal error or panic (unlock of an unlocked mutex, a ticker with a
    non-positive interval). *)
Inductive outcome (A : Type) : Type :=
| Done (a : A) (w : World)
| Blocked
| Fatal.
Arguments Done {A} a w.
Arguments Blocked {A}.
Arguments Fatal {A}.

(** The order in which a range loop visits the keys of a map is chosen
    by the Go runtime. *)
Variable rangeOrder : gmap string cachedItem → list string.

Definition handle {R : Type} (e : Act R) (w : World) : outcome R :=
  match e in Act R return outcome R with
  | Now => Done (clock w) w
  | Lock =>
      if writer (mu (mem w)) then Blocked
      else match readers (mu (mem w)) with
           | O => Done tt (with_mu {| writer := true; readers := 0 |} w)
           | S _ => Blocked
           end
  | Unlock =>
      if writer (mu (mem w))
      then Done tt (with_mu {| writer := false; readers := readers (mu (mem w)) |} w)
      else Fatal
  | RLock =>
      if writer (mu (mem w)) then Blocked
      else Done tt (with_mu {| writer := false; readers := S (readers (mu (mem w))) |} w)
  | RUnlock =>
      match readers (mu (mem w)) with
      | O => Fatal
      | S n => Done tt (with_mu {| writer := writer (mu (mem w)); readers := n |} w)
      end
  | MapGet key => Done (items (mem w) !! key) w
  | MapSet key item => Done tt (with_items (<[key := item]> (items (mem w))) w)
  | MapDelete key => Done tt (with_items (delete key (items (mem w))) w)
  | MapMake => Done tt (with_items ∅ w)
  | MapRange => Done (rangeOrder (items (mem w))) w
  | Println line => Done tt (with_logged (logged w ++ [line]) w)
  | Panic _ => Fatal
  end.

Fixpoint run {A : Type} (p : Prog A) (w : World) : outcome A :=
  match p with
  | Ret a => Done a w
  | Vis e k =>
      match handle e w with
      | Done r w' => run (k r) w'
      | Blocked => Blocked
      | Fatal => Fatal
      end
  end.

(** A world in which no goroutine holds the mutex. *)
Definition idle (now : time.Time) (m : gmap string cachedItem)
    (lines : list string) : World :=
  {| clock := now; mem := {| mu := unlocked; items := m |}; logged := lines |}.

(** The same world at another reading of the clock. *)
Definition later (t : time.Time) (w : World) : World :=
  {| clock := t; mem := mem w; logged := logged w |}.

(** ** Interleaving semantics *)

(** What an action does to the store, with its operands erased. *)
Inductive kind : Type :=
| KNow | KLock | KUnlock | KRLock | KRUnlock | KRead | KWrite | KLog | KPanic.

Definition kindOf {R : Type} (e : Act R) : kind :=
  match e with
  | Now => KNow
  | Lock => KLock
  | Unlock => KUnlock
  | RLock => KRLock
  | RUnlock => KRUnlock
  | MapGet _ => KRead
  | MapRange => KRead
  | MapSet _ _ => KWrite
  | MapDelete _ => KWrite
  | MapMake => KWrite
  | Println _ => KLog
  | Panic _ => KPanic
  end.

(** Whether an action touches the mutex or the map. *)
Definition touchesStore (k : kind) : bool :=
  match k with
  | KNow | KLog | KPanic => false
  | _ => true
  end.

(** What a goroutine holds of the mutex. *)
Inductive held : Type := HNone | HRead | HWrite.

#[export] Instance held_eq_dec : EqDecision held.
Proof. solve_decision. Defined.

(** The locking discipline: the mutex is taken only when not held and
    released only in the mode it is held in, the map is read only under
    the mutex and written only under the write lock. *)
Definition discipline (k : kind) (h : held) : option held :=
  match k, h with
  | KLock, HNone => Some HWrite
  | KUnlock, HWrite => Some HNone
  | KRLock, HNone => Some HRead
  | KRUnlock, HRead => Some HNone
  | KRead, HRead => Some HRead
  | KRead, HWrite => Some HWrite
  | KWrite, HWrite => Some HWrite
  | KNow, _ | KLog, _ | KPanic, _ => Some h
  | _, _ => None
  end.

(** [follows h p h']: started holding [h], the program [p] follows the
    discipline whatever the actions answer, and returns holding [h']. *)
Fixpoint follows {A : Type} (h : held) (p : Prog A) (h' : held) : Prop :=
  match p with
  | Ret _ => h = h'
  | Vis e k =>
      match discipline (kindOf e) h with
      | Some h1 => ∀ r, follows h1 (k r) h'
      | None => False
      end
  end.

(** A program that returns holding nothing. *)
Definition wellLocked (h : held) (p : Prog unit) : Prop := follows h p HNone.

(** [path p ks a]: for some answers of its actions, [p] performs the
    actions of kinds [ks], in this order, and returns [a]. *)
Fixpoint path {A : Type} (p : Prog A) (ks : list kind) (a : A) : Prop :=
  match p with
  | Ret a' => ks = [] ∧ a = a'
  | Vis e k => ∃ r ks', ks = kindOf e :: ks' ∧ path (k r) ks' a
  end.

(** The kinds of action found inside the critical section of a sweep. *)
Definition insidePass (k : kind) : bool :=
  match k with
  | KRead | KWrite | KLog => true
  | _ => false
  end.

(** A call a goroutine makes. *)
Inductive Call : Type :=
| CallGet (key : string)
| CallSet (key : string) (val : any)
| CallSetWithTTL (key : string) (val : any) (ttl : time.Duration)
| CallDelete (key : string)
| CallClear
| CallStartCacheWorker (cache : Cache) (interval : time.Duration)
    (sel : list selected).

Definition call (c : Call) : Prog unit :=
  match c with
  | CallGet key => Get key;; Ret tt
  | CallSet key val => Set_ key val
  | CallSetWithTTL key val ttl => SetWithTTL key val ttl
  | CallDelete key => Delete key
  | CallClear => Clear
  | CallStartCacheWorker cache interval sel => StartCacheWorker cache interval sel
  end.

(** A goroutine: the calls it makes, one after the other. *)
Definition goroutine (calls : list Call) : Prog unit := forEach calls call.

Inductive Event : Type :=
| Tick                          (* time passes *)
| Ev (tid : nat) (k : kind).    (* goroutine [tid] performs an action *)

Record Config : Type := { world : World; pool : list (Prog unit) }.

(** One step: the clock advances, or a goroutine performs its next
    action, which must neither block nor die. *)
Inductive step : Config → Event → Config → Prop :=
| step_tick w ps t :
    clock w ≤ t →
    step {| world := w; pool := ps |} Tick
         {| world := later t w; pool := ps |}
| step_act w ps tid R (e : Act R) k r w' :
    ps !! tid = Some (Vis e k) →
    handle e w = Done r w' →
    step {| world := w; pool := ps |} (Ev tid (kindOf e))
         {| world := w'; pool := <[tid := k r]> ps |}.

Inductive exec : Config → list Event → Config → Prop :=
| exec_nil c : exec c [] c
| exec_cons c ev c' evs c'' :
    step c ev c' → exec c' evs c'' → exec c (ev :: evs) c''.

(** The goroutines start with the mutex free. *)
Definition initial (now : time.Time) (m : gmap string cachedItem)
    (lines : list string) (callss : list (list Call)) : Config :=
  {| world := idle now m lines; pool := goroutine <$> callss |}.

(** How many goroutines hold the mutex in mode [x]. *)
Definition holders (x : held) (hs : list held) : nat :=
  length (filter (λ h, h = x) hs).

(** The state of the mutex agrees with what the goroutines hold. *)
Definition consistent (l : RWMutex) (hs : list held) : Prop :=
  holders HWrite hs = (if writer l then 1 else 0)%nat
  ∧ holders HRead hs = readers l
  ∧ (writer l = true → readers l = 0%nat).

(** The invariant of the interleaving semantics: every goroutine follows
    the discipline from what it holds, and the mutex agrees. *)
Definition Inv (hs : list held) (c : Config) : Prop :=
  Forall2 wellLocked hs (pool c) ∧ consistent (mu (mem (world c))) hs.

End Cache.

Arguments any : clear implicits.
Arguments cachedItem : clear implicits.
Arguments inMemoryCache : clear implicits.
Arguments World : clear implicits.
Arguments Act : clear implicits.
Arguments Prog : clear implicits.
Arguments outcome : clear implicits.
Arguments Call : clear implicits.
Arguments Config : clear implicits.
Arguments NewCache : clear implicits.
Arguments Ret {V A} a.
Arguments Vis {V A R} e k.
Arguments Done {V A} a w.
Arguments Blocked {V A}.
Arguments Fatal {V A}.

(** The keys of a map in the order of its list of entries: one order a
    range loop may take. *)
Definition keysOf {V : Type} (m : gmap string (cachedItem V)) : list string :=
  (map_to_list m).*1.

(** The keys in the opposite order: another one. *)
Definition keysOfRev {V : Type} (m : gmap string (cachedItem V)) : list string :=
  reverse (keysOf m).

(** A store used in the examples: ["a"] expires at 5, ["b"] never
    expires, ["c"] expired at 3. *)
Definition exampleItems : gmap string (cachedItem Z) :=
  <["a" := {| value := anyVal 1; expiration := 5 |}]>
  (<["b" := {| value := anyVal 2; expiration := time.zero |}]>
  (<["c" := {| value := anyVal 3; expiration := 3 |}]> ∅)).

(** ** What a sweep leaves and what it logs *)

(** The line [cleanupCache] logs for a deleted key. *)
Definition deletedLine (key : string) : string :=
  "Cache worker: deleted expired key: " +:+ key.

(** The key has an entry that passes the test of the sweep loop. *)
Definition doomed {V : Type} (now : time.Time)
    (m : gmap string (cachedItem V)) (key : string) : bool :=
  match m !! key with
  | Some item => sweepable now item
  | None => false
  end.

(** The entries that fail the test of the sweep loop. *)
Definition survivors {V : Type} (now : time.Time)
    (m : gmap string (cachedItem V)) : gmap string (cachedItem V) :=
  filter (λ kv, sweepable now kv.2 = false) m.

(** The ticks a worker loop takes before its first stop or cancel. *)
Fixpoint ticksUntilStop (sel : list selected) : nat :=
  match sel with
  | tickerC :: rest => S (ticksUntilStop rest)
  | _ => 0
  end.


#[export] Instance kind_eq_dec : EqDecision kind.
Proof. solve_decision. Defined.

#[export] Instance Event_eq_dec : EqDecision Event.
Proof. solve_decision. Defined.

(** ** What a goroutine holds, read off the events *)

(** What a goroutine holds after a mutex action. *)
Definition acquire (k : kind) (h : held) : held :=
  match k with
  | KLock => HWrite
  | KRLock => HRead
  | KUnlock | KRUnlock => HNone
  | _ => h
  end.

Definition heldStep (tid : nat) (h : held) (ev : Event) : held :=
  match ev with
  | Tick => h
  | Ev i k => if decide (i = tid) then acquire k h else h
  end.

(** What goroutine [tid] holds after the events [evs], having started
    with nothing. *)
Definition heldBy (tid : nat) (evs : list Event) : held :=
  foldl (heldStep tid) HNone evs.

(** A goroutine that has returned. *)
Definition returned {V : Type} (p : Prog V unit) : Prop :=
  match p with
  | Ret _ => True
  | Vis _ _ => False
  end.

(** A goroutine about to panic. *)
Definition panicking {V : Type} (p : Prog V unit) : Prop :=
  match p with
  | Vis e _ => kindOf e = KPanic
  | Ret _ => False
  end.

(** * Properties of the sequential semantics *)

Section Sequential.

Context {V : Type}.
Variable rangeOrder : gmap string (cachedItem V) → list string.

Local Notation "'run'" := (run rangeOrder).

(** A range loop produces every entry of the map once. *)
Hypothesis rangeOrder_keys : ∀ m, rangeOrder m ≡ₚ keysOf m.

Lemma run_bind {A B : Type} (p : Prog V A) (f : A → Prog V B) (w : World V) :
  run (bind p f) w =
  match run p w with
  | Done a w' => run (f a) w'
  | Blocked => Blocked
  | Fatal => Fatal
  end.
Proof.
  revert w. induction p as [a | R e k IH]; intros w; [done |].
  simpl. destruct (handle rangeOrder e w); [apply IH | done | done].
Qed.

Lemma run_mbind {A B : Type} (p : Prog V A) (f : A → Prog V B) (w : World V) :
  run (p ≫= f) w =
  match run p w with
  | Done a w' => run (f a) w'
  | Blocked => Blocked
  | Fatal => Fatal
  end.
Proof. apply run_bind. Qed.

Lemma run_isExpired (ci : cachedItem V) (w : World V) :
  run (isExpired ci) w = Done (sweepable (clock w) ci) w.
Proof.
  unfold isExpired, sweepable. destruct (time.IsZero (expiration ci)); done.
Qed.

Lemma run_Delete (key : string) now m lines :
  run (Delete key) (idle now m lines) = Done tt (idle now (delete key m) lines).
Proof. reflexivity. Qed.

Lemma run_Get (key : string) now m lines :
  run (Get key) (idle now m lines) =
  match m !! key with
  | None => Done (anyNil, false) (idle now m lines)
  | Some item =>
      if sweepable now item
      then Done (anyNil, false) (idle now (delete key m) lines)
      else Done (value item, true) (idle now m lines)
  end.
Proof.
  unfold Get. cbn. destruct (m !! key) as [item |]; [| done].
  rewrite run_mbind, run_isExpired. cbn.
  destruct (sweepable now item); done.
Qed.


Lemma run_SetWithTTL (key : string) (val : any V) (ttl : time.Duration) now m lines :
  run (SetWithTTL key val ttl) (idle now m lines) =
  Done tt (idle now
    (<[key := {| value := val;
                 expiration := if bool_decide (0 < ttl) then time.Add now ttl
                               else time.zero |}]> m) lines).
Proof. unfold SetWithTTL. case_bool_decide; reflexivity. Qed.

Lemma run_Clear now (m : gmap string (cachedItem V)) lines :
  run Clear (idle now m lines) = Done tt (idle now ∅ lines).
Proof. reflexivity. Qed.

Lemma run_sweepBody now key (w : World V) :
  run (sweepBody now key) w =
  Done tt
    match items (mem w) !! key with
    | Some item =>
        if sweepable now item
        then with_logged
               (logged w ++ ["Cache worker: deleted expired key: " +:+ key])
               (with_items (delete key (items (mem w))) w)
        else w
    | None => w
    end.
Proof.
  unfold sweepBody. cbn. destruct (items (mem w) !! key) as [item |]; [| done].
  destruct (sweepable now item); done.
Qed.

(** What the range loop leaves of a map: an entry is gone exactly when its
    key was visited and it passed the test. *)
Lemma run_sweepLoop now keys (w : World V) :
  ∃ w', run (forEach keys (sweepBody now)) w = Done tt w'
    ∧ clock w' = clock w
    ∧ mu (mem w') = mu (mem w)
    ∧ (∃ lines, logged w' = logged w ++ lines)
    ∧ ∀ k, items (mem w') !! k =
           item ← items (mem w) !! k;
           if bool_decide (k ∈ keys) && sweepable now item then None else Some item.
Proof.
  revert w. induction keys as [| key rest IH]; intros w.
  - exists w. repeat split; [by exists []; rewrite app_nil_r |].
    intros k. by destruct (items (mem w) !! k).
  - cbn [forEach]. rewrite run_mbind, run_sweepBody.
    set (w1 := match items (mem w) !! key with Some _ => _ | None => _ end).
    destruct (IH w1) as (w' & Hrun & Hclock & Hmu & [lines Hlog] & Hitems).
    exists w'. rewrite Hrun, Hclock, Hmu, Hlog.
    assert (Hw1 : clock w1 = clock w ∧ mu (mem w1) = mu (mem w)
                  ∧ ∃ l, logged w1 = logged w ++ l).
    { subst w1. destruct (items (mem w) !! key) as [item |].
      - destruct (sweepable now item); simpl; [by eauto |].
        repeat split. exists []. by rewrite app_nil_r.
      - repeat split. exists []. by rewrite app_nil_r. }
    destruct Hw1 as (-> & -> & [l ->]).
    repeat split; [exists (l ++ lines); by rewrite app_assoc |].
    intros k. rewrite Hitems. subst w1.
    destruct (decide (k = key)) as [-> | Hne].
    + rewrite (bool_decide_eq_true_2 (key ∈ key :: rest)) by apply list_elem_of_here.
      destruct (items (mem w) !! key) as [item |] eqn:Hkey; simpl.
      * destruct (sweepable now item) eqn:Hs; simpl.
        -- by rewrite lookup_delete_eq.
        -- rewrite Hkey. simpl. rewrite Hs. by rewrite andb_false_r.
      * by rewrite Hkey.
    + assert (Hin : bool_decide (k ∈ key :: rest) = bool_decide (k ∈ rest)).
      { apply bool_decide_ext. rewrite elem_of_cons. tauto. }
      rewrite Hin.
      destruct (items (mem w) !! key) as [item |]; [| done].
      destruct (sweepable now item); [| done].
      simpl. by rewrite lookup_delete_ne.
Qed.

Lemma run_cleanupCache now (m : gmap string (cachedItem V)) lines :
  ∃ m' lines',
    run (cleanupCache Cache_inMemoryCache) (idle now m lines) =
      Done tt (idle now m' (lines ++ lines'))
    ∧ ∀ k, m' !! k =
           item ← m !! k;
           if bool_decide (k ∈ rangeOrder m) && sweepable now item
           then None else Some item.
Proof.
  unfold cleanupCache, deferring. cbn.
  rewrite run_bind.
  set (w0 := with_mu _ _).
  destruct (run_sweepLoop now (rangeOrder m) w0)
    as (w' & Hrun & Hclock & Hmu & [lines' Hlog] & Hitems).
  rewrite Hrun. cbn. rewrite Hmu. subst w0. cbn.
  exists (items (mem w')), lines'. split; [| exact Hitems].
  destruct w' as [c [l its] lg]. simpl in *. by subst.
Qed.


Lemma elem_of_keysOf (m : gmap string (cachedItem V)) k item :
  m !! k = Some item → k ∈ keysOf m.
Proof.
  intros Hk. unfold keysOf. apply list_elem_of_fmap.
  exists (k, item). split; [done |]. by apply elem_of_map_to_list.
Qed.

Lemma sweepable_spec now (item : cachedItem V) :
  sweepable now item = true ↔
  expiration item ≠ time.zero ∧ expiration item < now.
Proof.
  unfold sweepable, time.IsZero, time.After, time.zero.
  rewrite andb_true_iff, negb_true_iff, bool_decide_eq_false, bool_decide_eq_true.
  done.
Qed.

(** C1 (amended): one sweep pass over a store returns and leaves no entry
    whose expiration is set and strictly before the time the pass read
    from the clock. *)
Theorem cleanupCache_removes_expired now (m : gmap string (cachedItem V)) lines :
  ∃ w', run (cleanupCache Cache_inMemoryCache) (idle now m lines) = Done tt w'
    ∧ ∀ k item, items (mem w') !! k = Some item →
        ¬ (expiration item ≠ time.zero ∧ expiration item < now).
Proof.
  destruct (run_cleanupCache now m lines) as (m' & lines' & Hrun & Hitems).
  eexists. split; [exact Hrun |]. simpl. intros k item Hk Hexp.
  rewrite Hitems in Hk. destruct (m !! k) as [item0 |] eqn:Hm; [| done].
  simpl in Hk.
  rewrite bool_decide_eq_true_2 in Hk
    by (rewrite rangeOrder_keys; by eapply elem_of_keysOf).
  simpl in Hk. destruct (sweepable now item0) eqn:Hs; [done |].
  injection Hk as ->. apply sweepable_spec in Hexp. congruence.
Qed.

(** C2: on a store at rest, [Get] returns the value and [true] exactly
    when the key is present with an entry that is not expired at the call
    time, and then changes nothing; it returns [(nil, false)] for an absent
    key; and for a present, expired key it returns [(nil, false)] with the
    entry removed from the store. *)
Theorem Get_spec key now (m : gmap string (cachedItem V)) lines :
  (∀ v w', run (Get key) (idle now m lines) = Done (v, true) w' ↔
     ∃ item, m !! key = Some item
       ∧ run (isExpired item) (idle now m lines) = Done false (idle now m lines)
       ∧ v = value item ∧ w' = idle now m lines)
  ∧ (m !! key = None →
     run (Get key) (idle now m lines) = Done (anyNil, false) (idle now m lines))
  ∧ (∀ item, m !! key = Some item →
     run (isExpired item) (idle now m lines) = Done true (idle now m lines) →
     run (Get key) (idle now m lines) =
       Done (anyNil, false) (idle now (delete key m) lines)
     ∧ delete key m !! key = None).
Proof.
  rewrite run_Get. split; [| split].
  - intros v w'. split.
    + destruct (m !! key) as [item |]; [| done].
      destruct (sweepable now item) eqn:Hs; [done |].
      intros [= <- <-]. exists item. rewrite run_isExpired. simpl.
      by rewrite Hs.
    + intros (item & -> & Hexp & -> & ->).
      rewrite run_isExpired in Hexp. simpl in Hexp.
      injection Hexp as ->. done.
  - by intros ->.
  - intros item Hk Hexp. rewrite run_isExpired in Hexp. simpl in Hexp.
    injection Hexp as Hs. rewrite Hk, Hs. split; [done |].
    apply lookup_delete_eq.
Qed.

(** C3: [isExpired] always answers; an entry whose expiration is the zero
    time is never expired; an entry with a set expiration is expired
    exactly when the clock is strictly after it; and [Get] at the very
    instant of the expiration still returns the value. *)
Theorem isExpired_spec (ci : cachedItem V) :
  (∀ w, ∃ b, run (isExpired ci) w = Done b w
     ∧ (expiration ci = time.zero → b = false)
     ∧ (expiration ci ≠ time.zero → (b = true ↔ expiration ci < clock w)))
  ∧ (∀ key now m lines,
       m !! key = Some ci → expiration ci = now →
       run (Get key) (idle now m lines) = Done (value ci, true) (idle now m lines)).
Proof.
  split.
  - intros w. exists (sweepable (clock w) ci). rewrite run_isExpired.
    split; [done |]. split.
    + intros Hz. apply not_true_is_false. rewrite sweepable_spec. tauto.
    + intros Hnz. rewrite sweepable_spec. tauto.
  - intros key now m lines Hk Hnow. rewrite run_Get, Hk.
    replace (sweepable now ci) with false; [done |].
    symmetry. apply not_true_is_false. rewrite sweepable_spec. lia.
Qed.

(** C4: after [SetWithTTL key val ttl] with a positive [ttl], at a clock
    reading [now] after the zero time, as long as the entry of [key] is
    left alone, [Get key] returns [(val, true)] at any time strictly
    before [now + ttl] and [(nil, false)] at any time strictly after it. *)
Theorem SetWithTTL_then_Get key (val : any V) ttl now m lines :
  0 < ttl → time.zero < now →
  ∃ w1, run (SetWithTTL key val ttl) (idle now m lines) = Done tt w1
    ∧ ∀ t m2 lines2, m2 !! key = items (mem w1) !! key →
        (t < now + ttl →
           run (Get key) (idle t m2 lines2) = Done (val, true) (idle t m2 lines2))
        ∧ (now + ttl < t →
           run (Get key) (idle t m2 lines2) =
             Done (anyNil, false) (idle t (delete key m2) lines2)).
Proof.
  intros Httl Hnow. rewrite run_SetWithTTL. eexists. split; [done |].
  intros t m2 lines2 Hk. cbn [idle mem items] in Hk.
  rewrite lookup_insert_eq, bool_decide_eq_true_2 in Hk by done.
  rewrite run_Get, Hk. unfold time.zero, time.Add in *. split; intros Ht.
  - replace (sweepable t _) with false; [done |].
    symmetry. apply not_true_is_false. rewrite sweepable_spec. simpl. lia.
  - replace (sweepable t _) with true; [done |].
    symmetry. rewrite sweepable_spec. simpl. unfold time.zero. lia.
Qed.

(** C5: [SetWithTTL] on a store at rest leaves, whatever entry the key had
    before, the store the call would leave had the key been absent, with
    the entry of the key made of the new value and the new expiration
    alone.  In particular [Set key v1] followed by [SetWithTTL key v2 ttl]
    leaves the entry [(v2, t1 + ttl)] (no expiration when [ttl <= 0]) and
    [Get key] returns [(v2, true)] until it expires. *)
Theorem SetWithTTL_replaces key (v1 v2 : any V) ttl t0 t1 m lines :
  let new := {| value := v2;
                expiration := if bool_decide (0 < ttl) then time.Add t1 ttl
                              else time.zero |} in
  (∀ m0, run (SetWithTTL key v2 ttl) (idle t1 m0 lines) =
           Done tt (idle t1 (<[key := new]> (delete key m0)) lines))
  ∧ (∀ m0, run (Set_ key v2) (idle t1 m0 lines) =
           Done tt (idle t1 (<[key := {| value := v2; expiration := time.zero |}]>
                               (delete key m0)) lines))
  ∧ ∃ w1 w2,
      run (Set_ key v1) (idle t0 m lines) = Done tt w1
      ∧ run (SetWithTTL key v2 ttl) (later t1 w1) = Done tt w2
      ∧ items (mem w2) !! key = Some new
      ∧ ∀ t, (0 < ttl → t ≤ t1 + ttl) →
          run (Get key) (later t w2) = Done (v2, true) (later t w2).
Proof.
  intros new. split; [| split].
  - intros m0. by rewrite run_SetWithTTL, insert_delete_eq.
  - intros m0. unfold Set_. by rewrite run_SetWithTTL, insert_delete_eq.
  - unfold Set_. rewrite run_SetWithTTL.
    eexists. eexists. split; [done |].
    change (later t1 (idle t0 ?m' lines)) with (idle t1 m' lines).
    rewrite run_SetWithTTL. split; [done |].
    cbn [idle mem items]. rewrite lookup_insert_eq. split; [done |].
    intros t Ht.
    change (later t (idle t1 ?m' lines)) with (idle t m' lines).
    rewrite run_Get, lookup_insert_eq.
    replace (sweepable t _) with false; [done |].
    symmetry. apply not_true_is_false. rewrite sweepable_spec. simpl.
    unfold time.zero, time.Add. case_bool_decide; lia.
Qed.

(** C6: with [ttl <= 0], [SetWithTTL key val ttl] does in every world what
    [Set key val] does; on a store at rest both leave the entry of [key]
    with the value [val] and the zero expiration, which never expires. *)
Theorem SetWithTTL_nonpositive_is_Set key (val : any V) ttl :
  ttl ≤ 0 →
  (∀ w, run (SetWithTTL key val ttl) w = run (Set_ key val) w)
  ∧ (∀ now m lines,
       run (SetWithTTL key val ttl) (idle now m lines) =
         Done tt (idle now (<[key := {| value := val; expiration := time.zero |}]> m)
                    lines))
  ∧ (∀ w, run (isExpired {| value := val; expiration := time.zero |}) w
          = Done false w).
Proof.
  intros Httl. split; [| split].
  - intros w. unfold Set_, SetWithTTL.
    by rewrite !bool_decide_eq_false_2 by lia.
  - intros now m lines. rewrite run_SetWithTTL.
    by rewrite bool_decide_eq_false_2 by lia.
  - intros w. by rewrite run_isExpired.
Qed.

(** C7: in every world, two calls of [Delete key] in a row do what one
    call does; on a store at rest [Delete] returns, and it changes nothing
    when the key is absent. *)
Theorem Delete_idempotent key :
  (∀ w : World V, run (Delete key;; Delete key) w = run (Delete key) w)
  ∧ (∀ now (m : gmap string (cachedItem V)) lines,
       run (Delete key) (idle now m lines) = Done tt (idle now (delete key m) lines))
  ∧ (∀ now (m : gmap string (cachedItem V)) lines,
       m !! key = None →
       run (Delete key) (idle now m lines) = Done tt (idle now m lines)).
Proof.
  split; [| split].
  - intros [c [[wr rd] its] lg]. rewrite run_mbind.
    destruct wr; [done |]. destruct rd as [| rd]; [| done].
    cbn. unfold with_items, with_mu. cbn. by rewrite delete_delete_eq.
  - intros now m lines. apply run_Delete.
  - intros now m lines Hk. by rewrite run_Delete, delete_id.
Qed.

(** C8: handed a [Cache] that is not the [*inMemoryCache] (another
    implementation, or the nil interface), a sweep returns after writing
    one line to the log: the clock, the mutex and the entries are as they
    were, whatever state the mutex is in. *)
Theorem cleanupCache_skips_other_caches (cache : Cache) (w : World V) :
  cache ≠ Cache_inMemoryCache →
  ∃ line, run (cleanupCache cache) w = Done tt (with_logged (logged w ++ [line]) w)
    ∧ mem (with_logged (logged w ++ [line]) w) = mem w
    ∧ clock (with_logged (logged w ++ [line]) w) = clock w.
Proof.
  intros Hne. destruct cache; [| done |]; by eexists.
Qed.

(** C9: one sweep pass over a store returns, keeps every entry whose
    expiration is the zero time or is not strictly before the time the
    pass read from the clock, with its value and expiration, and adds no
    key. *)
Theorem cleanupCache_keeps_unexpired now (m : gmap string (cachedItem V)) lines :
  ∃ w', run (cleanupCache Cache_inMemoryCache) (idle now m lines) = Done tt w'
    ∧ (∀ k item, m !! k = Some item →
         expiration item = time.zero ∨ ¬ (expiration item < now) →
         items (mem w') !! k = Some item)
    ∧ (∀ k, m !! k = None → items (mem w') !! k = None).
Proof.
  destruct (run_cleanupCache now m lines) as (m' & lines' & Hrun & Hitems).
  eexists. split; [exact Hrun |]. cbn [idle mem items]. split.
  - intros k item Hk Hexp. rewrite Hitems, Hk. simpl.
    replace (sweepable now item) with false; [by rewrite andb_false_r |].
    symmetry. apply not_true_is_false. rewrite sweepable_spec. tauto.
  - intros k Hk. by rewrite Hitems, Hk.
Qed.

(** ** More on the sweep *)

Lemma sweepable_mono now now' (item : cachedItem V) :
  now ≤ now' → sweepable now item = true → sweepable now' item = true.
Proof. rewrite !sweepable_spec. lia. Qed.

Lemma filter_agree {X : Type} (P Q : X → Prop)
    `{!∀ x, Decision (P x), !∀ x, Decision (Q x)} (l : list X) :
  (∀ x, x ∈ l → (P x ↔ Q x)) → filter P l = filter Q l.
Proof.
  induction l as [| x l IH]; intros Hagree; [done |].
  rewrite !filter_cons.
  rewrite IH by (intros y Hy; apply Hagree; by right).
  destruct (decide (P x)) as [HP | HP], (decide (Q x)) as [HQ | HQ];
    try done; exfalso; apply (Hagree x) in HP || apply (Hagree x) in HQ;
    done || by left.
Qed.

(** The loop changes nothing when no entry passes its test. *)
Lemma run_sweepLoop_quiet now keys (w : World V) :
  (∀ k item, items (mem w) !! k = Some item → sweepable now item = false) →
  run (forEach keys (sweepBody now)) w = Done tt w.
Proof.
  intros Hquiet. induction keys as [| key rest IH]; [done |].
  cbn [forEach]. rewrite run_mbind, run_sweepBody.
  destruct (items (mem w) !! key) as [item |] eqn:Hkey; [| exact IH].
  by rewrite (Hquiet key item Hkey).
Qed.

(** The loop logs one line for each key it deletes, in the order it
    visits them. *)
Lemma run_sweepLoop_log now keys :
  NoDup keys →
  ∀ w : World V, ∀ w', run (forEach keys (sweepBody now)) w = Done tt w' →
    logged w' =
    logged w ++
      (deletedLine <$> filter (λ k, doomed now (items (mem w)) k = true) keys).
Proof.
  induction keys as [| key rest IH]; intros Hnodup w w'.
  - intros [= <-]. by rewrite app_nil_r.
  - apply NoDup_cons in Hnodup as [Hfresh Hnodup].
    cbn [forEach]. rewrite run_mbind, run_sweepBody.
    set (w1 := match items (mem w) !! key with Some _ => _ | None => _ end).
    intros Hrun. rewrite (IH Hnodup w1 w' Hrun).
    assert (Hrest :
      filter (λ k, doomed now (items (mem w1)) k = true) rest
      = filter (λ k, doomed now (items (mem w)) k = true) rest).
    { apply filter_agree. intros k Hk.
      assert (k ≠ key) by (intros ->; done).
      replace (doomed now (items (mem w1)) k) with (doomed now (items (mem w)) k);
        [done |].
      subst w1. unfold doomed.
      destruct (items (mem w) !! key) as [item |]; [| done].
      destruct (sweepable now item); [| done].
      simpl. by rewrite lookup_delete_ne. }
    rewrite Hrest, filter_cons.
    assert (Hd : doomed now (items (mem w)) key =
                 match items (mem w) !! key with
                 | Some item => sweepable now item
                 | None => false
                 end) by done.
    subst w1.
    destruct (items (mem w) !! key) as [item |];
      [destruct (sweepable now item) |]; rewrite Hd.
    + rewrite decide_True by done. simpl. by rewrite <- app_assoc.
    + by rewrite decide_False.
    + by rewrite decide_False.
Qed.

Lemma NoDup_rangeOrder m : NoDup (rangeOrder m).
Proof. rewrite rangeOrder_keys. apply NoDup_fst_map_to_list. Qed.

Lemma survivors_lookup now (m : gmap string (cachedItem V)) k :
  survivors now m !! k =
  item ← m !! k; if sweepable now item then None else Some item.
Proof.
  unfold survivors. rewrite map_lookup_filter.
  destruct (m !! k) as [item |]; [| done]. simpl.
  destruct (sweepable now item).
  - by rewrite option_guard_False.
  - by rewrite option_guard_True.
Qed.

(** The whole effect of a sweep of a store at rest. *)
Lemma run_cleanupCache_exact now (m : gmap string (cachedItem V)) lines :
  run (cleanupCache Cache_inMemoryCache) (idle now m lines) =
  Done tt (idle now (survivors now m)
             (lines ++ (deletedLine <$>
                          filter (λ k, doomed now m k = true) (rangeOrder m)))).
Proof.
  unfold cleanupCache, deferring. cbn.
  rewrite run_bind.
  set (w0 := with_mu _ _).
  destruct (run_sweepLoop now (rangeOrder m) w0)
    as (w' & Hrun & Hclock & Hmu & _ & Hitems).
  pose proof (run_sweepLoop_log now (rangeOrder m) (NoDup_rangeOrder m) w0 w' Hrun)
    as Hlog.
  rewrite Hrun. cbn. rewrite Hmu. subst w0. cbn.
  assert (Hsurv : items (mem w') = survivors now m).
  { apply map_eq. intros k. rewrite Hitems, survivors_lookup. cbn.
    destruct (m !! k) as [item |] eqn:Hk; [| done]. simpl.
    rewrite bool_decide_eq_true_2; [done |].
    rewrite rangeOrder_keys. by eapply elem_of_keysOf. }
  destruct w' as [c [l its] lg]. simpl in *. by subst.
Qed.

Lemma run_cleanupCache_quiet now (m : gmap string (cachedItem V)) lines :
  (∀ k item, m !! k = Some item → sweepable now item = false) →
  run (cleanupCache Cache_inMemoryCache) (idle now m lines) =
  Done tt (idle now m lines).
Proof.
  intros Hquiet. unfold cleanupCache, deferring. cbn.
  rewrite run_bind, run_sweepLoop_quiet by done. reflexivity.
Qed.

(** X1: a sweep of a store at rest leaves exactly the entries that fail
    the test of the loop, whatever the order of the range loop, and logs
    exactly one line for each entry it deletes; up to their order these
    are the lines of the doomed keys of the map. *)
Theorem cleanupCache_exact now (m : gmap string (cachedItem V)) lines :
  ∃ lines',
    run (cleanupCache Cache_inMemoryCache) (idle now m lines)
    = Done tt (idle now (survivors now m) (lines ++ lines'))
    ∧ lines' = deletedLine <$> filter (λ k, doomed now m k = true) (rangeOrder m)
    ∧ lines' ≡ₚ deletedLine <$> filter (λ k, doomed now m k = true) (keysOf m)
    ∧ (∀ k, survivors now m !! k =
            item ← m !! k; if sweepable now item then None else Some item).
Proof.
  eexists. split; [apply run_cleanupCache_exact |].
  split; [done |]. split; [by rewrite rangeOrder_keys |].
  apply survivors_lookup.
Qed.

(** X2: a sweep of a store in which no entry passes the test changes
    nothing: no entry, no log line, whatever keys the range loop visits. *)
Theorem cleanupCache_nothing_expired now (m : gmap string (cachedItem V)) lines :
  (∀ k item, m !! k = Some item →
     expiration item = time.zero ∨ now ≤ expiration item) →
  run (cleanupCache Cache_inMemoryCache) (idle now m lines)
  = Done tt (idle now m lines).
Proof.
  intros Hfresh. apply run_cleanupCache_quiet. intros k item Hk.
  apply not_true_is_false. rewrite sweepable_spec.
  destruct (Hfresh k item Hk); lia.
Qed.

(** X3: two sweeps in a row, at one reading of the clock, do what one
    sweep does: the second deletes nothing and logs nothing. *)
Theorem cleanupCache_idempotent now (m : gmap string (cachedItem V)) lines :
  run (cleanupCache Cache_inMemoryCache;; cleanupCache Cache_inMemoryCache)
      (idle now m lines)
  = run (cleanupCache Cache_inMemoryCache) (idle now m lines).
Proof.
  rewrite run_mbind, run_cleanupCache_exact.
  apply run_cleanupCache_quiet. intros k item Hk.
  rewrite survivors_lookup in Hk.
  destruct (m !! k) as [item0 |]; [| done]. simpl in Hk.
  destruct (sweepable now item0) eqn:Hs; [done |]. by injection Hk as <-.
Qed.

(** X4: a sweep is invisible to [Get]: at the time of the sweep or later,
    [Get] of any key answers after the sweep what it answers without
    it. *)
Theorem cleanupCache_invisible_to_Get now (m : gmap string (cachedItem V))
    lines key t :
  now ≤ t →
  ∃ w', run (cleanupCache Cache_inMemoryCache) (idle now m lines) = Done tt w'
    ∧ ∃ r w1 w2,
        run (Get key) (idle t m lines) = Done r w1
        ∧ run (Get key) (later t w') = Done r w2.
Proof.
  intros Ht.
  destruct (run_cleanupCache now m lines) as (m' & lines' & Hrun & Hitems).
  eexists. split; [exact Hrun |].
  change (later t (idle now m' (lines ++ lines'))) with (idle t m' (lines ++ lines')).
  rewrite !run_Get, Hitems.
  destruct (m !! key) as [item |]; [| by eauto]. simpl.
  destruct (bool_decide (key ∈ rangeOrder m) && sweepable now item) eqn:Hdel.
  - apply andb_true_iff in Hdel as [_ Hs].
    rewrite (sweepable_mono now t item Ht Hs). by eauto.
  - destruct (sweepable t item); by eauto.
Qed.

(** ** How the methods compose *)

(** X5: [Clear] empties a store at rest, and after it [Get] finds no key,
    at any time. *)
Theorem Clear_then_Get now (m : gmap string (cachedItem V)) lines key t :
  run Clear (idle now m lines) = Done tt (idle now ∅ lines)
  ∧ run (Clear;; Get key) (idle now m lines)
    = Done (anyNil, false) (idle now ∅ lines)
  ∧ run (Get key) (idle t ∅ lines) = Done (anyNil, false) (idle t ∅ lines).
Proof.
  split; [done |]. split.
  - by rewrite run_mbind, run_Clear, run_Get, lookup_empty.
  - by rewrite run_Get, lookup_empty.
Qed.

(** X6: after [Set key val], as long as the entry of [key] is left alone,
    [Get key] returns [(val, true)] at every time and changes nothing. *)
Theorem Set_then_Get key (val : any V) now m lines :
  ∃ w1, run (Set_ key val) (idle now m lines) = Done tt w1
    ∧ ∀ t m2 lines2, m2 !! key = items (mem w1) !! key →
        run (Get key) (idle t m2 lines2) = Done (val, true) (idle t m2 lines2).
Proof.
  unfold Set_. rewrite run_SetWithTTL. eexists. split; [done |].
  intros t m2 lines2 Hk. cbn [idle mem items] in Hk.
  rewrite lookup_insert_eq in Hk. by rewrite run_Get, Hk.
Qed.

(** X7: after [Delete key], [Get key] finds nothing and changes
    nothing. *)
Theorem Delete_then_Get key now (m : gmap string (cachedItem V)) lines :
  run (Delete key;; Get key) (idle now m lines)
  = Done (anyNil, false) (idle now (delete key m) lines).
Proof. by rewrite run_mbind, run_Delete, run_Get, lookup_delete_eq. Qed.

(** X8: on a store without the key, [SetWithTTL] followed by [Delete]
    gives the store back as it was. *)
Theorem SetWithTTL_then_Delete key (val : any V) ttl now m lines :
  m !! key = None →
  run (SetWithTTL key val ttl;; Delete key) (idle now m lines)
  = Done tt (idle now m lines).
Proof.
  intros Hk. rewrite run_mbind, run_SetWithTTL, run_Delete.
  by rewrite delete_insert_eq, delete_id.
Qed.

(** X9: [SetWithTTL], [Set], [Delete] and [Get] on one key leave the
    entries of every other key as they were. *)
Theorem other_keys_untouched key k' (val : any V) ttl now m lines :
  k' ≠ key →
  (∃ w', run (SetWithTTL key val ttl) (idle now m lines) = Done tt w'
     ∧ items (mem w') !! k' = m !! k')
  ∧ (∃ w', run (Set_ key val) (idle now m lines) = Done tt w'
     ∧ items (mem w') !! k' = m !! k')
  ∧ (∃ w', run (Delete key) (idle now m lines) = Done tt w'
     ∧ items (mem w') !! k' = m !! k')
  ∧ (∃ r w', run (Get key) (idle now m lines) = Done r w'
     ∧ items (mem w') !! k' = m !! k').
Proof.
  intros Hne. unfold Set_. rewrite !run_SetWithTTL, run_Delete, run_Get.
  repeat split.
  - eexists. split; [done |]. cbn. by rewrite lookup_insert_ne.
  - eexists. split; [done |]. cbn. by rewrite lookup_insert_ne.
  - eexists. split; [done |]. cbn. by rewrite lookup_delete_ne.
  - destruct (m !! key) as [item |]; [destruct (sweepable now item) |];
      eexists _, _; (split; [done |]); cbn; [by rewrite lookup_delete_ne | done..].
Qed.

(** X10: expiry only goes one way: a key [Get] finds at some time it
    finds, with the same value, at every earlier time; a key it does not
    find it does not find at any later time either. *)
Theorem expiry_is_monotone key (m : gmap string (cachedItem V)) lines t t' :
  t' ≤ t →
  (∀ v w', run (Get key) (idle t m lines) = Done (v, true) w' →
     run (Get key) (idle t' m lines) = Done (v, true) (idle t' m lines))
  ∧ (∀ w', run (Get key) (idle t' m lines) = Done (anyNil, false) w' →
     ∃ w'', run (Get key) (idle t m lines) = Done (anyNil, false) w'').
Proof.
  intros Ht. rewrite !run_Get.
  destruct (m !! key) as [item |]; [| split; [done | by eauto]].
  destruct (sweepable t' item) eqn:Hs'.
  - rewrite (sweepable_mono t' t item Ht Hs'). split; [done | by eauto].
  - split.
    + destruct (sweepable t item); [done |]. by intros v w' [= <- _].
    + intros w' Hget. by simplify_eq.
Qed.

(** X11: on the store [NewCache] returns, [Get] finds no key and a sweep
    changes nothing, whatever keys the range loop visits. *)
Theorem NewCache_is_empty key now lines :
  run (Get key) {| clock := now; mem := NewCache V; logged := lines |}
  = Done (anyNil, false) {| clock := now; mem := NewCache V; logged := lines |}
  ∧ run (cleanupCache Cache_inMemoryCache)
      {| clock := now; mem := NewCache V; logged := lines |}
    = Done tt {| clock := now; mem := NewCache V; logged := lines |}.
Proof.
  change {| clock := now; mem := NewCache V; logged := lines |}
    with (idle now (∅ : gmap string (cachedItem V)) lines).
  split.
  - by rewrite run_Get, lookup_empty.
  - apply run_cleanupCache_quiet. intros k item Hk.
    by rewrite lookup_empty in Hk.
Qed.

(** ** The methods and the mutex *)





(** X13: [Get] shares the mutex with other readers: while [n + 1] other
    goroutines hold the read lock, [Get] of an absent key or of an
    unexpired entry returns as on a store at rest and leaves the mutex
    with its [n + 1] readers; [Get] of an expired entry waits, for its
    [Delete] needs the write lock. *)
Theorem Get_beside_readers key now (m : gmap string (cachedItem V)) lines n :
  let w := {| clock := now;
              mem := {| mu := {| writer := false; readers := S n |}; items := m |};
              logged := lines |} in
  (m !! key = None → run (Get key) w = Done (anyNil, false) w)
  ∧ (∀ item, m !! key = Some item →
       run (isExpired item) w = Done false w →
       run (Get key) w = Done (value item, true) w)
  ∧ (∀ item, m !! key = Some item →
       run (isExpired item) w = Done true w →
       run (Get key) w = Blocked).
Proof.
  intros w.
  assert (Hget : run (Get key) w =
    match m !! key with
    | None => Done (anyNil, false) w
    | Some item =>
        if sweepable now item then Blocked else Done (value item, true) w
    end).
  { subst w. unfold Get. cbn. destruct (m !! key) as [item |]; [| done].
    rewrite run_mbind, run_isExpired. cbn.
    by destruct (sweepable now item). }
  rewrite Hget. split; [| split].
  - by intros ->.
  - intros item -> Hexp. rewrite run_isExpired in Hexp.
    injection Hexp as Hs. simpl in Hs. by rewrite Hs.
  - intros item -> Hexp. rewrite run_isExpired in Hexp.
    injection Hexp as Hs. simpl in Hs. by rewrite Hs.
Qed.


(** X15: calls on different keys commute: at one reading of the clock,
    two [SetWithTTL], a [SetWithTTL] and a [Delete], or two [Delete] on
    different keys leave the same store in either order. *)
Theorem different_keys_commute k1 k2 (v1 v2 : any V) ttl1 ttl2 now m lines :
  k1 ≠ k2 →
  run (SetWithTTL k1 v1 ttl1;; SetWithTTL k2 v2 ttl2) (idle now m lines)
  = run (SetWithTTL k2 v2 ttl2;; SetWithTTL k1 v1 ttl1) (idle now m lines)
  ∧ run (SetWithTTL k1 v1 ttl1;; Delete k2) (idle now m lines)
    = run (Delete k2;; SetWithTTL k1 v1 ttl1) (idle now m lines)
  ∧ run (Delete k1;; Delete k2) (idle now m lines)
    = run (Delete k2;; Delete k1) (idle now m lines).
Proof.
  intros Hne. rewrite !run_mbind.
  repeat (rewrite ?run_SetWithTTL, ?run_Delete).
  split; [| split].
  - by rewrite insert_insert_ne.
  - by rewrite delete_insert_ne.
  - by rewrite delete_delete.
Qed.

End Sequential.

(** * Properties of the interleaving semantics *)

Section Interleaving.

Context {V : Type}.
Variable rangeOrder : gmap string (cachedItem V) → list string.

Local Notation "'step'" := (step rangeOrder).
Local Notation "'exec'" := (exec rangeOrder).

(** ** The methods follow the locking discipline *)

Lemma follows_bind {A B : Type} h1 h2 h3 (p : Prog V A) (f : A → Prog V B) :
  follows h1 p h2 → (∀ a, follows h2 (f a) h3) → follows h1 (bind p f) h3.
Proof.
  revert h1. induction p as [a | R e k IH]; intros h1 Hp Hf; simpl in *.
  - subst. apply Hf.
  - destruct (discipline (kindOf e) h1); [| done]. intros r. by apply IH.
Qed.

Lemma follows_forEach {X : Type} h (xs : list X) (body : X → Prog V unit) :
  (∀ x, follows h (body x) h) → follows h (forEach xs body) h.
Proof.
  intros Hbody. induction xs as [| x rest IH]; [done |].
  cbn [forEach]. by apply (follows_bind h h h).
Qed.

Ltac follow :=
  repeat first
    [ progress intros
    | progress simpl
    | reflexivity
    | match goal with
      | |- context [match ?x with _ => _ end] => destruct x
      end ].

Lemma follows_isExpired h (ci : cachedItem V) : follows h (isExpired ci) h.
Proof. unfold isExpired. follow. Qed.

Lemma follows_Delete key : follows (V := V) HNone (Delete key) HNone.
Proof. unfold Delete. follow. Qed.

Lemma follows_Get key : follows (V := V) HNone (Get key) HNone.
Proof. unfold Get, isExpired. follow. Qed.

Lemma follows_SetWithTTL key (val : any V) ttl :
  follows HNone (SetWithTTL key val ttl) HNone.
Proof. unfold SetWithTTL. follow. Qed.

Lemma follows_Clear : follows (V := V) HNone Clear HNone.
Proof. unfold Clear. follow. Qed.

Lemma follows_sweepBody now key :
  follows (V := V) HWrite (sweepBody now key) HWrite.
Proof. unfold sweepBody. follow. Qed.

Lemma follows_cleanupCache cache :
  follows (V := V) HNone (cleanupCache cache) HNone.
Proof.
  destruct cache; [by follow | | by follow].
  unfold cleanupCache, deferring. simpl. intros now _ keys.
  apply (follows_bind HWrite HWrite HNone); [| by follow].
  apply follows_forEach, follows_sweepBody.
Qed.

Lemma follows_workerLoop cache sel :
  follows (V := V) HNone (workerLoop cache sel) HNone.
Proof.
  induction sel as [| [] rest IH]; [done | by follow | by follow |].
  cbn [workerLoop]. apply (follows_bind HNone HNone HNone); [| done].
  apply follows_cleanupCache.
Qed.

Lemma follows_call (c : Call V) : wellLocked HNone (call c).
Proof.
  unfold wellLocked. destruct c; cbn [call].
  - apply (follows_bind HNone HNone HNone); [apply follows_Get | done].
  - apply follows_SetWithTTL.
  - apply follows_SetWithTTL.
  - apply follows_Delete.
  - apply follows_Clear.
  - unfold StartCacheWorker. case_bool_decide; [by follow |].
    simpl. intros _. apply follows_workerLoop.
Qed.

Lemma follows_goroutine (calls : list (Call V)) :
  wellLocked HNone (goroutine calls).
Proof. apply follows_forEach, follows_call. Qed.

(** ** Building executions *)

Lemma step_act_eq (w : World V) ps tid R (e : Act V R) k r w' kd c' :
  ps !! tid = Some (Vis e k) →
  handle rangeOrder e w = Done r w' →
  kd = kindOf e →
  c' = {| world := w'; pool := <[tid := k r]> ps |} →
  step {| world := w; pool := ps |} (Ev tid kd) c'.
Proof. intros Hlook Hhandle -> ->. by apply step_act. Qed.

(** ** The invariant *)

Lemma holders_cons x h hs :
  holders x (h :: hs) = ((if decide (h = x) then 1 else 0) + holders x hs)%nat.
Proof. unfold holders. rewrite filter_cons. by case_decide. Qed.

Lemma holders_insert x hs i h h' :
  hs !! i = Some h →
  (holders x (<[i := h']> hs) + (if decide (h = x) then 1 else 0)
   = holders x hs + (if decide (h' = x) then 1 else 0))%nat.
Proof.
  revert i. induction hs as [| h0 hs IH]; intros i Hi; [done |].
  destruct i as [| i]; simpl in *.
  - injection Hi as ->. rewrite !holders_cons. lia.
  - rewrite !holders_cons. specialize (IH i Hi). lia.
Qed.

Lemma holders_replicate_ne x y n : x ≠ y → holders x (replicate n y) = 0%nat.
Proof.
  intros Hne. induction n as [| n IH]; [done |].
  simpl. rewrite holders_cons, IH. by rewrite decide_False.
Qed.

Lemma held_other (x : held) : ∃ y, y ≠ x.
Proof. destruct x; [exists HRead | exists HNone | exists HNone]; done. Qed.

Lemma holders_two x hs i j :
  hs !! i = Some x → hs !! j = Some x → i ≠ j → (2 ≤ holders x hs)%nat.
Proof.
  intros Hi Hj Hne.
  destruct (held_other x) as [y Hy].
  pose proof (holders_insert x hs i x y Hi) as H1.
  assert (Hj' : <[i := y]> hs !! j = Some x) by by rewrite list_lookup_insert_ne.
  pose proof (holders_insert x _ j x y Hj') as H2.
  rewrite decide_True in H1, H2 by done.
  rewrite decide_False in H1, H2 by done. lia.
Qed.

Lemma holders_one x hs i : hs !! i = Some x → (1 ≤ holders x hs)%nat.
Proof.
  intros Hi.
  destruct (held_other x) as [y Hy].
  pose proof (holders_insert x hs i x y Hi) as H1.
  rewrite decide_True in H1 by done. rewrite decide_False in H1 by done. lia.
Qed.

Lemma Inv_initial now (m : gmap string (cachedItem V)) lines callss :
  Inv (replicate (length callss) HNone) (initial now m lines callss).
Proof.
  split; simpl.
  - induction callss as [| calls rest IH]; simpl; [constructor |].
    constructor; [apply follows_goroutine | apply IH].
  - unfold consistent. by rewrite !holders_replicate_ne.
Qed.

(** A step keeps the invariant; the goroutine that moves changes what it
    holds as the discipline says. *)
Lemma step_Inv hs c ev c' :
  Inv hs c → step c ev c' →
  ∃ hs', Inv hs' c'
    ∧ match ev with
      | Tick => hs' = hs
      | Ev tid k =>
          ∃ h h', hs !! tid = Some h ∧ discipline k h = Some h'
            ∧ hs' = <[tid := h']> hs
      end.
Proof.
  intros [Hwl Hcons] Hstep.
  destruct Hstep as [w ps t Ht | w ps tid R e k r w' Hlook Hhandle].
  - exists hs. by split.
  - simpl in *.
    destruct (Forall2_lookup_r _ _ _ _ _ Hwl Hlook) as (h & Hh & Hfol).
    unfold wellLocked in Hfol. simpl in Hfol.
    destruct (discipline (kindOf e) h) as [h' |] eqn:Hd; [| done].
    exists (<[tid := h']> hs). split; [| by eauto].
    split; simpl; [apply Forall2_insert; [done | apply Hfol] |].
    pose proof (holders_insert HWrite hs tid h h' Hh) as HW.
    pose proof (holders_insert HRead hs tid h h' Hh) as HR.
    destruct Hcons as (Hw & Hr & Hwr). unfold consistent.
    destruct w as [c [[wr rd] its] lg].
    destruct e; simpl in *; destruct h; simplify_eq;
      repeat case_match; simplify_eq; simpl in *;
      repeat case_decide; simplify_eq; repeat split; try lia; try done.
Qed.

Lemma exec_Inv hs c evs c' : Inv hs c → exec c evs c' → ∃ hs', Inv hs' c'.
Proof.
  intros HInv Hexec. revert hs HInv.
  induction Hexec as [c | c ev c1 evs c2 Hstep _ IH]; intros hs HInv; [by eauto |].
  destruct (step_Inv hs c ev c1 HInv Hstep) as (hs1 & HInv1 & _). by eauto.
Qed.

Lemma exec_app c evs1 evs2 c' :
  exec c (evs1 ++ evs2) c' → ∃ c1, exec c evs1 c1 ∧ exec c1 evs2 c'.
Proof.
  revert c. induction evs1 as [| ev evs1 IH]; intros c Hexec; simpl in *.
  - exists c. split; [constructor | done].
  - inversion Hexec as [| ? ? c1 ? ? Hstep Hrest]; subst.
    destruct (IH c1 Hrest) as (c2 & H1 & H2).
    exists c2. split; [by econstructor | done].
Qed.

(** ** Mutual exclusion *)

(** While a goroutine holds the write lock, a step of another goroutine
    touches neither the mutex nor the map. *)
Lemma exclusive_step hs c s j k c' :
  Inv hs c → hs !! s = Some HWrite → step c (Ev j k) c' → j ≠ s →
  touchesStore k = false.
Proof.
  intros [Hwl (Hw & Hr & Hwr)] Hs Hstep Hne.
  inversion Hstep as [| w ps tid R e kk r w' Hlook Hhandle]; subst.
  simpl in *.
  destruct (Forall2_lookup_r _ _ _ _ _ Hwl Hlook) as (h & Hh & Hfol).
  unfold wellLocked in Hfol. simpl in Hfol.
  pose proof (holders_one _ _ _ Hs) as H1.
  destruct (writer (mu (mem w))) eqn:Hwriter; [| lia].
  specialize (Hwr eq_refl).
  assert (h = HNone) as ->.
  { destruct h; [done | |].
    - pose proof (holders_one _ _ _ Hh). lia.
    - pose proof (holders_two _ _ _ _ Hh Hs Hne). lia. }
  destruct e; simpl in *; try done; by rewrite Hwriter in Hhandle.
Qed.

(** The write lock stays with its holder until the holder unlocks, and
    meanwhile no other goroutine touches the mutex or the map. *)
Lemma exclusive_exec s c evs c' :
  exec c evs c' →
  ∀ hs, Inv hs c → hs !! s = Some HWrite → Ev s KUnlock ∉ evs →
  ∀ j k, Ev j k ∈ evs → j ≠ s → touchesStore k = false.
Proof.
  induction 1 as [c | c ev c1 evs c2 Hstep _ IH]; intros hs HInv Hs Hnot j k Hin Hne.
  - by apply elem_of_nil in Hin.
  - apply not_elem_of_cons in Hnot as [Hev Hnot].
    destruct (step_Inv hs c ev c1 HInv Hstep) as (hs1 & HInv1 & Hhs1).
    apply elem_of_cons in Hin as [<- | Hin].
    { by apply (exclusive_step hs c s j k c1). }
    apply (IH hs1 HInv1) with (j := j); try done.
    destruct ev as [| tid kd]; [by subst |].
    destruct Hhs1 as (h & h' & Hh & Hd & ->).
    destruct (decide (tid = s)) as [-> | Hts].
    + rewrite Hs in Hh. injection Hh as <-.
      rewrite list_lookup_insert_eq by by eapply lookup_lt_Some.
      destruct kd; simpl in Hd; by simplify_eq.
    + by rewrite list_lookup_insert_ne.
Qed.

(** ** The shape of a sweep *)

Lemma path_bind {A B : Type} (p : Prog V A) (f : A → Prog V B) ks b :
  path (bind p f) ks b →
  ∃ a ks1 ks2, ks = ks1 ++ ks2 ∧ path p ks1 a ∧ path (f a) ks2 b.
Proof.
  revert ks. induction p as [a | R e k IH]; intros ks Hp; simpl in *.
  - by exists a, [], ks.
  - destruct Hp as (r & ks' & -> & Hp).
    destruct (IH r ks' Hp) as (a & ks1 & ks2 & -> & H1 & H2).
    exists a, (kindOf e :: ks1), ks2. by eauto 10.
Qed.

Lemma path_sweepBody now key ks a :
  path (V := V) (sweepBody now key) ks a → Forall (λ k, insidePass k = true) ks.
Proof.
  unfold sweepBody. simpl. intros (r & ks' & -> & Hp).
  destruct r as [item |]; [destruct (sweepable now item) |]; simpl in Hp.
  - destruct Hp as (_ & ? & -> & _ & ? & -> & -> & _). by repeat constructor.
  - destruct Hp as [-> _]. by repeat constructor.
  - destruct Hp as [-> _]. by repeat constructor.
Qed.

Lemma path_sweepLoop now keys ks a :
  path (V := V) (forEach keys (sweepBody now)) ks a →
  Forall (λ k, insidePass k = true) ks.
Proof.
  revert ks. induction keys as [| key rest IH]; intros ks Hp.
  - destruct Hp as [-> _]. constructor.
  - cbn [forEach] in Hp. apply path_bind in Hp as (? & ks1 & ks2 & -> & H1 & H2).
    apply Forall_app. split; [by eapply path_sweepBody | by apply IH].
Qed.

Lemma path_cleanupCache ks a :
  path (V := V) (cleanupCache Cache_inMemoryCache) ks a →
  ∃ body, ks = KNow :: KLock :: body ++ [KUnlock]
    ∧ Forall (λ k, insidePass k = true) body.
Proof.
  unfold cleanupCache, deferring. simpl.
  intros (now & ? & -> & _ & ? & -> & keys & ? & -> & Hp).
  apply path_bind in Hp as (? & ks1 & ks2 & -> & H1 & H2).
  simpl in H2. destruct H2 as (_ & ? & -> & -> & _).
  exists (KRead :: ks1). split; [done |].
  constructor; [done | by eapply path_sweepLoop].
Qed.

(** C10: a sweep pass takes the write lock once, touches the map only
    between that [Lock] and the [Unlock] that ends the pass, and on a
    store at rest returns with the mutex free; and in every interleaving
    of goroutines that call the cache and run workers, from the [Lock] of
    a goroutine to its [Unlock] no other goroutine performs an action on
    the mutex or the map, so their accesses fall wholly before or wholly
    after the pass. *)
Theorem sweep_is_atomic :
  (∀ ks a, path (V := V) (cleanupCache Cache_inMemoryCache) ks a →
     ∃ body, ks = KNow :: KLock :: body ++ [KUnlock]
       ∧ Forall (λ k, insidePass k = true) body)
  ∧ (∀ now (m : gmap string (cachedItem V)) lines,
       ∃ m' lines',
         run rangeOrder (cleanupCache Cache_inMemoryCache) (idle now m lines)
         = Done tt (idle now m' lines'))
  ∧ (∀ now (m : gmap string (cachedItem V)) lines callss evs c pre s mid j k post,
       exec (initial now m lines callss) evs c →
       evs = pre ++ Ev s KLock :: mid ++ Ev j k :: post →
       Ev s KUnlock ∉ mid → j ≠ s →
       touchesStore k = false).
Proof.
  split; [exact path_cleanupCache | split].
  - intros now m lines.
    destruct (run_cleanupCache rangeOrder now m lines) as (m' & lines' & Hrun & _).
    by eauto.
  - intros now m lines callss evs c pre s mid j k post Hexec -> Hnot Hne.
    apply exec_app in Hexec as (c1 & Hpre & Hexec).
    destruct (exec_Inv _ _ _ _ (Inv_initial now m lines callss) Hpre)
      as (hs1 & HInv1).
    inversion Hexec as [| ? ? c2 ? ? Hlock Hrest]; subst.
    destruct (step_Inv hs1 c1 _ c2 HInv1 Hlock)
      as (hs2 & HInv2 & h & h' & Hh & Hd & ->).
    replace (mid ++ Ev j k :: post) with ((mid ++ [Ev j k]) ++ post) in Hrest
      by by rewrite <- app_assoc.
    apply exec_app in Hrest as (c3 & Hmid & _).
    apply (exclusive_exec s c2 (mid ++ [Ev j k]) c3 Hmid _ HInv2) with (j := j).
    + rewrite list_lookup_insert_eq by by eapply lookup_lt_Some.
      destruct h; simpl in Hd; by simplify_eq.
    + rewrite elem_of_app, list_elem_of_singleton. intros [Hin | [= ? _]]; done.
    + rewrite elem_of_app, list_elem_of_singleton. by right.
    + done.
Qed.

(** ** What the goroutines hold, along an execution *)

Lemma acquire_discipline k h h' : discipline k h = Some h' → h' = acquire k h.
Proof. destruct k, h; simpl; congruence. Qed.

(** The invariant holds with what the events say each goroutine holds. *)
Lemma exec_held c evs c' :
  exec c evs c' →
  ∀ hs, Inv hs c →
  ∃ hs', Inv hs' c'
    ∧ ∀ j, hs' !! j = (λ h, foldl (heldStep j) h evs) <$> hs !! j.
Proof.
  induction 1 as [c | c ev c1 evs c2 Hstep _ IH]; intros hs HInv.
  - exists hs. split; [done |]. intros j. by destruct (hs !! j).
  - destruct (step_Inv hs c ev c1 HInv Hstep) as (hs1 & HInv1 & Hhs1).
    destruct (IH hs1 HInv1) as (hs2 & HInv2 & Hhs2).
    exists hs2. split; [done |]. intros j. rewrite Hhs2. simpl.
    destruct ev as [| tid k]; [by subst |].
    destruct Hhs1 as (h & h' & Hh & Hd & ->).
    apply acquire_discipline in Hd as ->. simpl.
    destruct (decide (tid = j)) as [-> | Hne].
    + rewrite list_lookup_insert_eq by by eapply lookup_lt_Some.
      by rewrite Hh.
    + rewrite list_lookup_insert_ne by done. by destruct (hs !! j).
Qed.

Lemma exec_initial_held now (m : gmap string (cachedItem V)) lines callss evs c :
  exec (initial now m lines callss) evs c →
  ∃ hs, Inv hs c
    ∧ ∀ j, hs !! j = if decide (j < length callss)%nat
                     then Some (heldBy j evs) else None.
Proof.
  intros Hexec.
  destruct (exec_held _ _ _ Hexec _ (Inv_initial now m lines callss))
    as (hs & HInv & Hhs).
  exists hs. split; [done |]. intros j. rewrite Hhs.
  case_decide.
  - by rewrite lookup_replicate_2.
  - by rewrite (proj1 (lookup_replicate_None _ _ _)) by lia.
Qed.

(** Events name goroutines of the pool only. *)
Lemma exec_stranger c evs c' j h :
  exec c evs c' → pool c !! j = None → foldl (heldStep j) h evs = h.
Proof.
  induction 1 as [c | c ev c1 evs c2 Hstep _ IH]; intros Hj; [done |].
  simpl. destruct Hstep as [w ps t Ht | w ps tid R e k r w' Hlook Hhandle];
    simpl in *.
  - by apply IH.
  - assert (tid ≠ j) by congruence.
    rewrite decide_False by done. apply IH.
    by rewrite list_lookup_insert_ne.
Qed.

Lemma heldBy_stranger now (m : gmap string (cachedItem V)) lines callss evs c j :
  exec (initial now m lines callss) evs c →
  (length callss ≤ j)%nat → heldBy j evs = HNone.
Proof.
  intros Hexec Hj. eapply exec_stranger; [exact Hexec |].
  simpl. apply lookup_ge_None_2. by rewrite length_fmap.
Qed.

Lemma holders_lookup x hs : (0 < holders x hs)%nat → ∃ i, hs !! i = Some x.
Proof.
  induction hs as [| h hs IH]; [by inversion 1 |].
  rewrite holders_cons. case_decide as Hx.
  - subst. intros _. by exists 0%nat.
  - intros Hpos. destruct IH as [i Hi]; [lia |]. by exists (S i).
Qed.

(** X16: in every execution the write lock is exclusive: while the events
    say a goroutine holds it, they say every other goroutine holds
    nothing, and the mutex is write-locked with no reader; while they say
    a goroutine holds the read lock, the mutex is not write-locked. *)
Theorem mutex_is_exclusive now (m : gmap string (cachedItem V)) lines callss evs c :
  exec (initial now m lines callss) evs c →
  (∀ i j, heldBy i evs = HWrite → i ≠ j → heldBy j evs = HNone)
  ∧ (∀ i, heldBy i evs = HWrite →
       mu (mem (world c)) = {| writer := true; readers := 0 |})
  ∧ (∀ i, heldBy i evs = HRead →
       writer (mu (mem (world c))) = false ∧ readers (mu (mem (world c))) ≠ 0%nat).
Proof.
  intros Hexec.
  destruct (exec_initial_held _ _ _ _ _ _ Hexec) as (hs & [_ Hcons] & Hhs).
  destruct Hcons as (Hw & Hr & Hwr).
  assert (Hin : ∀ i h, heldBy i evs = h → h ≠ HNone → hs !! i = Some h).
  { intros i h Hi Hh. rewrite Hhs. case_decide; [by rewrite Hi |].
    rewrite (heldBy_stranger _ _ _ _ _ _ i Hexec) in Hi by lia. congruence. }
  split; [| split].
  - intros i j Hi Hne.
    pose proof (Hin i HWrite Hi ltac:(done)) as Hhi.
    pose proof (holders_one _ _ _ Hhi) as H1.
    destruct (writer (mu (mem (world c)))) eqn:Hwriter; [| lia].
    specialize (Hwr eq_refl).
    destruct (heldBy j evs) eqn:Hj; [done | |].
    + pose proof (holders_one _ _ _ (Hin j HRead Hj ltac:(done))). lia.
    + pose proof (holders_two _ _ _ _ Hhi (Hin j HWrite Hj ltac:(done)) Hne). lia.
  - intros i Hi.
    pose proof (holders_one _ _ _ (Hin i HWrite Hi ltac:(done))) as H1.
    destruct (mu (mem (world c))) as [wr rd]. simpl in *.
    destruct wr; [| lia]. by rewrite (Hwr eq_refl).
  - intros i Hi.
    pose proof (holders_one _ _ _ (Hin i HRead Hi ltac:(done))) as H1.
    destruct (writer (mu (mem (world c)))); [| split; [done | lia]].
    specialize (Hwr eq_refl). lia.
Qed.

(** X17: in every execution every goroutine keeps the locking discipline:
    it writes the map only while the events say it holds the write lock,
    reads it only while it holds the mutex in some mode, takes the mutex
    only while it holds nothing, and releases it only in the mode it
    holds. *)
Theorem map_accessed_under_lock now (m : gmap string (cachedItem V)) lines callss
    pre c1 j k c2 :
  exec (initial now m lines callss) pre c1 →
  step c1 (Ev j k) c2 →
  (k = KWrite → heldBy j pre = HWrite)
  ∧ (k = KRead → heldBy j pre ≠ HNone)
  ∧ (k = KLock ∨ k = KRLock → heldBy j pre = HNone)
  ∧ (k = KUnlock → heldBy j pre = HWrite)
  ∧ (k = KRUnlock → heldBy j pre = HRead).
Proof.
  intros Hexec Hstep.
  destruct (exec_initial_held _ _ _ _ _ _ Hexec) as (hs & [Hwl _] & Hhs).
  inversion Hstep as [| w ps tid R e kk r w' Hlook Hhandle]; subst.
  simpl in *.
  destruct (Forall2_lookup_r _ _ _ _ _ Hwl Hlook) as (h & Hh & Hfol).
  rewrite Hhs in Hh. case_decide; [| done]. injection Hh as <-.
  unfold wellLocked in Hfol. simpl in Hfol.
  destruct (heldBy j pre), (kindOf e); simpl in Hfol;
    repeat split; intros; try done; intuition congruence.
Qed.

(** While a goroutine holds the read lock, no step writes the map or
    takes the write lock. *)
Lemma shared_step hs c s j k c' :
  Inv hs c → hs !! s = Some HRead → step c (Ev j k) c' →
  k ≠ KWrite ∧ k ≠ KLock.
Proof.
  intros [Hwl (Hw & Hr & Hwr)] Hs Hstep.
  inversion Hstep as [| w ps tid R e kk r w' Hlook Hhandle]; subst.
  simpl in *.
  destruct (Forall2_lookup_r _ _ _ _ _ Hwl Hlook) as (h & Hh & Hfol).
  unfold wellLocked in Hfol. simpl in Hfol.
  pose proof (holders_one _ _ _ Hs) as H1.
  destruct (writer (mu (mem w))) eqn:Hwriter;
    [specialize (Hwr eq_refl); lia |].
  assert (h ≠ HWrite).
  { intros ->. pose proof (holders_one _ _ _ Hh). lia. }
  destruct (readers (mu (mem w))) eqn:Hreaders; [lia |].
  destruct e; simpl in *; try done; split; try done.
  - by rewrite Hwriter, Hreaders in Hhandle.
  - by destruct h.
  - by destruct h.
  - by destruct h.
Qed.

Lemma shared_exec s c evs c' :
  exec c evs c' →
  ∀ hs, Inv hs c → hs !! s = Some HRead → Ev s KRUnlock ∉ evs →
  ∀ j k, Ev j k ∈ evs → k ≠ KWrite ∧ k ≠ KLock.
Proof.
  induction 1 as [c | c ev c1 evs c2 Hstep _ IH]; intros hs HInv Hs Hnot j k Hin.
  - by apply elem_of_nil in Hin.
  - apply not_elem_of_cons in Hnot as [Hev Hnot].
    destruct (step_Inv hs c ev c1 HInv Hstep) as (hs1 & HInv1 & Hhs1).
    apply elem_of_cons in Hin as [<- | Hin].
    { by apply (shared_step hs c s j k c1). }
    apply (IH hs1 HInv1) with (j := j); try done.
    destruct ev as [| tid kd]; [by subst |].
    destruct Hhs1 as (h & h' & Hh & Hd & ->).
    destruct (decide (tid = s)) as [-> | Hts].
    + rewrite Hs in Hh. injection Hh as <-.
      rewrite list_lookup_insert_eq by by eapply lookup_lt_Some.
      destruct kd; simpl in Hd; by simplify_eq.
    + by rewrite list_lookup_insert_ne.
Qed.

(** X18: readers are never disturbed: in every execution, from the
    [RLock] of a goroutine to its [RUnlock] no goroutine writes the map or
    takes the write lock, so what [Get] reads is not changed under it. *)
Theorem readers_exclude_writers now (m : gmap string (cachedItem V)) lines callss
    evs c pre s mid j k post :
  exec (initial now m lines callss) evs c →
  evs = pre ++ Ev s KRLock :: mid ++ Ev j k :: post →
  Ev s KRUnlock ∉ mid →
  k ≠ KWrite ∧ k ≠ KLock.
Proof.
  intros Hexec -> Hnot.
  apply exec_app in Hexec as (c1 & Hpre & Hexec).
  destruct (exec_Inv _ _ _ _ (Inv_initial now m lines callss) Hpre)
    as (hs1 & HInv1).
  inversion Hexec as [| ? ? c2 ? ? Hlock Hrest]; subst.
  destruct (step_Inv hs1 c1 _ c2 HInv1 Hlock)
    as (hs2 & HInv2 & h & h' & Hh & Hd & ->).
  replace (mid ++ Ev j k :: post) with ((mid ++ [Ev j k]) ++ post) in Hrest
    by by rewrite <- app_assoc.
  apply exec_app in Hrest as (c3 & Hmid & _).
  destruct (decide (Ev j k = Ev s KRUnlock)) as [[= -> ->] | Hne]; [done |].
  apply (shared_exec s c2 (mid ++ [Ev j k]) c3 Hmid _ HInv2) with (j := j).
  - rewrite list_lookup_insert_eq by by eapply lookup_lt_Some.
    destruct h; simpl in Hd; by simplify_eq.
  - rewrite elem_of_app, list_elem_of_singleton. by intros [Hin | Hin].
  - rewrite elem_of_app, list_elem_of_singleton. by right.
Qed.

(** ** No fatal error, no deadlock *)

(** X19: in every execution no goroutine dies on the mutex: a goroutine
    whose next action is not a panic never meets a fatal error, so
    [Unlock] always finds the mutex write-locked and [RUnlock] always
    finds a reader. *)
Theorem no_fatal_unlock now (m : gmap string (cachedItem V)) lines callss evs c
    j R (e : Act V R) k :
  exec (initial now m lines callss) evs c →
  pool c !! j = Some (Vis e k) →
  kindOf e ≠ KPanic →
  handle rangeOrder e (world c) ≠ Fatal.
Proof.
  intros Hexec Hlook Hpanic.
  destruct (exec_Inv _ _ _ _ (Inv_initial now m lines callss) Hexec)
    as (hs & Hwl & Hw & Hr & Hwr).
  destruct (Forall2_lookup_r _ _ _ _ _ Hwl Hlook) as (h & Hh & Hfol).
  unfold wellLocked in Hfol. simpl in Hfol.
  pose proof (holders_one _ _ _ Hh) as H1.
  destruct e; simpl in *; try done; repeat case_match; try done;
    destruct h; try done; lia.
Qed.

(** A goroutine that holds the mutex can take its next step. *)
Lemma holder_steps hs c i h p :
  Inv hs c → hs !! i = Some h → h ≠ HNone →
  pool c !! i = Some p → ¬ panicking p →
  ∃ k c', step c (Ev i k) c'.
Proof.
  intros [Hwl (Hw & Hr & Hwr)] Hh Hheld Hlook Hpanic.
  destruct c as [w ps]. simpl in *.
  pose proof (Forall2_lookup_lr _ _ _ _ _ _ Hwl Hh Hlook) as Hfol.
  unfold wellLocked in Hfol.
  destruct p as [a | R e k]; simpl in *; [done |].
  pose proof (holders_one _ _ _ Hh) as H1.
  assert (Henabled : ∃ r w', handle rangeOrder e w = Done r w').
  { destruct e; simpl in *; try done; try by eauto.
    - by destruct h.
    - destruct h; try done. destruct (writer (mu (mem w))); [by eauto | lia].
    - by destruct h.
    - destruct h; try done. destruct (readers (mu (mem w))); [lia | by eauto]. }
  destruct Henabled as (r & w' & Hhandle).
  eexists _, _. by eapply step_act.
Qed.

(** X20: no deadlock: in every execution, as long as some goroutine has
    not returned and none is about to panic, some goroutine can take a
    step. *)
Theorem no_deadlock now (m : gmap string (cachedItem V)) lines callss evs c :
  exec (initial now m lines callss) evs c →
  (∃ j p, pool c !! j = Some p ∧ ¬ returned p) →
  (∀ j p, pool c !! j = Some p → ¬ panicking p) →
  ∃ tid k c', step c (Ev tid k) c'.
Proof.
  intros Hexec (j & p & Hlook & Hrunning) Hpanic.
  destruct (exec_Inv _ _ _ _ (Inv_initial now m lines callss) Hexec)
    as (hs & HInv).
  pose proof HInv as [Hwl (Hw & Hr & Hwr)].
  destruct (Forall2_lookup_r _ _ _ _ _ Hwl Hlook) as (h & Hh & Hfol).
  destruct (decide (h = HNone)) as [-> | Hheld];
    [| exists j;
       exact (holder_steps hs c j h p HInv Hh Hheld Hlook (Hpanic j p Hlook))].
  destruct p as [a | R e k]; [done |].
  pose proof (Hpanic j _ Hlook) as Hnopanic.
  unfold wellLocked in Hfol. simpl in Hfol, Hnopanic.
  destruct c as [w ps]. simpl in *.
  assert (Hholder : (0 < holders HWrite hs ∨ 0 < holders HRead hs)%nat →
                    ∃ tid kd c', step {| world := w; pool := ps |} (Ev tid kd) c').
  { intros [Hpos | Hpos]; apply holders_lookup in Hpos as [i Hi];
      destruct (Forall2_lookup_l _ _ _ _ _ Hwl Hi) as (q & Hq & _);
      exists i;
      by apply (holder_steps hs {| world := w; pool := ps |} i _ q HInv Hi);
        [| | apply (Hpanic i)]. }
  destruct (handle rangeOrder e w) as [r w' | |] eqn:Hhandle.
  - eexists j, _, _. by eapply step_act.
  - apply Hholder. destruct e; simpl in *; try done.
    + destruct (writer (mu (mem w))); [left; lia |].
      destruct (readers (mu (mem w))); [done | right; lia].
    + destruct (writer (mu (mem w))); [left; lia | done].
  - destruct e; simpl in *; try done; repeat case_match; done.
Qed.

(** X21: when every goroutine has returned the mutex is free, and the
    events say no goroutine holds anything. *)
Theorem finished_unlocked now (m : gmap string (cachedItem V)) lines callss evs c :
  exec (initial now m lines callss) evs c →
  Forall returned (pool c) →
  mu (mem (world c)) = unlocked ∧ ∀ j, heldBy j evs = HNone.
Proof.
  intros Hexec Hdone.
  destruct (exec_initial_held _ _ _ _ _ _ Hexec)
    as (hs & [Hwl (Hw & Hr & Hwr)] & Hhs).
  assert (Hnone : ∀ i h, hs !! i = Some h → h = HNone).
  { intros i h Hi.
    destruct (Forall2_lookup_l _ _ _ _ _ Hwl Hi) as (p & Hp & Hfol).
    rewrite Forall_lookup in Hdone. specialize (Hdone i p Hp).
    by destruct p. }
  assert (Hzero : ∀ x, x ≠ HNone → holders x hs = 0%nat).
  { intros x Hx. destruct (holders x hs) eqn:Hn; [done |].
    destruct (holders_lookup x hs) as [i Hi]; [lia |].
    by apply Hnone in Hi. }
  split.
  - rewrite Hzero in Hw, Hr by done.
    destruct (mu (mem (world c))) as [wr rd]. simpl in *.
    destruct wr; [done |]. by subst.
  - intros j. specialize (Hhs j). case_decide.
    + by apply Hnone in Hhs.
    + apply (heldBy_stranger now m lines callss evs c j Hexec). lia.
Qed.

(** ** The worker *)

Lemma filter_outside_pass k0 body :
  insidePass k0 = false →
  Forall (λ k, insidePass k = true) body →
  filter (λ k, k = k0) body = [].
Proof.
  intros Hk0. induction 1 as [| k body Hk _ IH]; [done |].
  rewrite filter_cons_False; [done | congruence].
Qed.

Lemma path_cleanupCache_locks cache ks a k0 :
  k0 = KLock ∨ k0 = KUnlock →
  path (V := V) (cleanupCache cache) ks a →
  length (filter (λ k, k = k0) ks)
  = match cache with Cache_inMemoryCache => 1%nat | _ => 0%nat end.
Proof.
  intros Hk0 Hp.
  destruct cache; [by destruct Hp as (_ & ? & -> & -> & _), Hk0 as [-> | ->] | |
                   by destruct Hp as (_ & ? & -> & -> & _), Hk0 as [-> | ->]].
  apply path_cleanupCache in Hp as (body & -> & Hbody).
  assert (Hnone : filter (λ k, k = k0) body = []).
  { apply filter_outside_pass; [by destruct Hk0 as [-> | ->] | done]. }
  change (KNow :: KLock :: body ++ [KUnlock])
    with ([KNow; KLock] ++ body ++ [KUnlock]).
  rewrite !filter_app, Hnone. by destruct Hk0 as [-> | ->].
Qed.

Lemma path_workerLoop_locks cache sel ks a k0 :
  k0 = KLock ∨ k0 = KUnlock →
  path (V := V) (workerLoop cache sel) ks a →
  length (filter (λ k, k = k0) ks)
  = match cache with
    | Cache_inMemoryCache => ticksUntilStop sel
    | _ => 0%nat
    end.
Proof.
  intros Hk0. revert ks. induction sel as [| [] rest IH]; intros ks Hp.
  - destruct Hp as [-> _]. by destruct cache.
  - destruct Hp as (_ & ? & -> & -> & _). by destruct cache, Hk0 as [-> | ->].
  - destruct Hp as (_ & ? & -> & -> & _). by destruct cache, Hk0 as [-> | ->].
  - cbn [workerLoop] in Hp.
    apply path_bind in Hp as (? & ks1 & ks2 & -> & H1 & H2).
    rewrite filter_app, length_app, (IH _ H2).
    rewrite (path_cleanupCache_locks cache ks1 _ k0 Hk0 H1).
    by destruct cache.
Qed.

(** X22: a worker with a positive interval sweeps once for each tick and
    stops at the first cancel or stop it selects: whatever its actions
    answer, it takes and releases the write lock as many times as there
    are ticks before that first stop, and never when it was handed a cache
    that is not the [*inMemoryCache]. *)
Theorem StartCacheWorker_one_sweep_per_tick cache interval sel ks a :
  0 < interval →
  path (V := V) (StartCacheWorker cache interval sel) ks a →
  length (filter (λ k, k = KLock) ks)
  = match cache with
    | Cache_inMemoryCache => ticksUntilStop sel
    | _ => 0%nat
    end
  ∧ length (filter (λ k, k = KUnlock) ks)
    = length (filter (λ k, k = KLock) ks).
Proof.
  intros Hint. unfold StartCacheWorker.
  rewrite bool_decide_eq_false_2 by lia. simpl.
  intros (_ & ks' & -> & Hp).
  rewrite !filter_cons_False by done.
  rewrite (path_workerLoop_locks cache sel ks' a KLock) by auto.
  by rewrite (path_workerLoop_locks cache sel ks' a KUnlock) by auto.
Qed.

(** ** The lazy deletion of [Get] *)

Ltac act_step :=
  eapply exec_cons;
  [ eapply step_act_eq;
      [cbn; reflexivity | cbn; reflexivity | reflexivity | reflexivity]
  | cbn ].

(** X23: the lazy deletion of [Get] is not atomic with its check.  With an
    expired entry at [key], a [Get key] and a [Set key val] can interleave
    so that [Set] stores its entry after [Get] has read the expired one and
    before [Get] deletes: both calls return and the store is left without
    [key], though in either order one after the other the two calls leave
    the entry of [Set]. *)
Theorem Get_lazy_delete_loses_Set key (old : cachedItem V) (val : any V)
    now m lines :
  m !! key = Some old →
  expiration old ≠ time.zero → expiration old < now →
  (∃ c, exec (initial now m lines [[CallGet key]; [CallSet key val]])
          [Ev 0 KRLock; Ev 0 KRead; Ev 0 KRUnlock; Ev 0 KNow;
           Ev 1 KLock; Ev 1 KWrite; Ev 1 KUnlock;
           Ev 0 KLock; Ev 0 KWrite; Ev 0 KUnlock] c
      ∧ Forall returned (pool c)
      ∧ items (mem (world c)) !! key = None)
  ∧ (∃ w', run rangeOrder (Get key;; Set_ key val) (idle now m lines) = Done tt w'
      ∧ items (mem w') !! key
        = Some {| value := val; expiration := time.zero |})
  ∧ (∃ w', run rangeOrder (Set_ key val;; Get key) (idle now m lines)
           = Done (val, true) w'
      ∧ items (mem w') !! key
        = Some {| value := val; expiration := time.zero |}).
Proof.
  intros Hm Hset Hpast.
  assert (Hzero : time.IsZero (expiration old) = false).
  { unfold time.IsZero. by rewrite bool_decide_eq_false_2. }
  assert (Hafter : time.After now (expiration old) = true).
  { unfold time.After. by rewrite bool_decide_eq_true_2. }
  split; [| split].
  - eexists. split.
    + unfold initial. cbn.
      rewrite (bool_decide_eq_false_2 (0 < 0)) by lia.
      act_step. act_step. rewrite Hm. unfold isExpired. rewrite Hzero.
      act_step. act_step. rewrite Hafter.
      act_step. act_step. act_step.
      act_step. act_step. act_step.
      apply exec_nil.
    + cbn. split; [by repeat constructor |]. apply lookup_delete_eq.
  - rewrite run_mbind, run_Get, Hm.
    unfold sweepable. rewrite Hzero, Hafter. cbn [negb andb].
    unfold Set_. rewrite run_SetWithTTL. eexists. split; [done |].
    cbn [idle mem items]. by rewrite lookup_insert_eq.
  - unfold Set_. rewrite run_mbind, run_SetWithTTL, run_Get, lookup_insert_eq.
    rewrite (bool_decide_eq_false_2 (0 < 0)) by lia.
    eexists. split; [done |]. cbn [idle mem items]. by rewrite lookup_insert_eq.
Qed.

End Interleaving.

(** * The theorems at concrete stores *)

(** A fresh cache has no key. *)
Example Get_NewCache :
  run keysOf (Get "a") {| clock := 9; mem := NewCache Z; logged := [] |}
  = Done (anyNil, false) {| clock := 9; mem := NewCache Z; logged := [] |}.
Proof. reflexivity. Qed.

(** ["a"] is set at 1000 with a TTL of 100: found at 1040, and at 1160 not
    found and gone from the map. *)
Example SetWithTTL_scenario :
  run keysOf (SetWithTTL "a" (anyVal 1) 100) (idle 1000 ∅ [])
  = Done tt (idle 1000 {["a" := {| value := anyVal 1; expiration := 1100 |}]} [])
  ∧ run keysOf (Get "a")
      (idle 1040 {["a" := {| value := anyVal 1; expiration := 1100 |}]} [])
    = Done (anyVal 1, true)
        (idle 1040 {["a" := {| value := anyVal 1; expiration := 1100 |}]} [])
  ∧ run keysOf (Get "a")
      (idle 1160 {["a" := {| value := anyVal 1; expiration := 1100 |}]} [])
    = Done (anyNil, false) (idle 1160 ∅ []).
Proof. repeat split; vm_compute; reflexivity. Qed.

(** A sweep at 5 of the example store deletes ["c"] alone and logs it,
    in either order of the range loop. *)
Example cleanupCache_example :
  run keysOf (cleanupCache Cache_inMemoryCache) (idle 5 exampleItems [])
  = Done tt (idle 5 (delete "c" exampleItems)
               ["Cache worker: deleted expired key: c"])
  ∧ run keysOfRev (cleanupCache Cache_inMemoryCache) (idle 5 exampleItems [])
    = Done tt (idle 5 (delete "c" exampleItems)
                 ["Cache worker: deleted expired key: c"]).
Proof. split; vm_compute; reflexivity. Qed.

(** A call that finds the mutex write-locked waits. *)
Example Get_blocked :
  run keysOf (Get "a")
    {| clock := 9;
       mem := {| mu := {| writer := true; readers := 0 |}; items := exampleItems |};
       logged := [] |}
  = Blocked.
Proof. reflexivity. Qed.

(** C1, as stated, fails: at time 5 a sweep leaves the entry ["a"], whose
    expiration is set and equal to 5, in the store. *)
Lemma cleanupCache_keeps_boundary_entry :
  ¬ (∀ now (m : gmap string (cachedItem Z)) lines w',
       run keysOf (cleanupCache Cache_inMemoryCache) (idle now m lines) = Done tt w' →
       ∀ k item, items (mem w') !! k = Some item →
         ¬ (expiration item ≠ time.zero ∧ expiration item ≤ now)).
Proof.
  intros Hclaim.
  refine (Hclaim 5 exampleItems [] _ _ "a"
            {| value := anyVal 1; expiration := 5 |} _ _).
  - vm_compute. reflexivity.
  - vm_compute. reflexivity.
  - split; [discriminate | reflexivity].
Qed.

Lemma cleanupCache_removes_expired_witness :
  ∃ w', run keysOfRev (cleanupCache Cache_inMemoryCache) (idle 5 exampleItems [])
        = Done tt w'
    ∧ ∀ k item, items (mem w') !! k = Some item →
        ¬ (expiration item ≠ time.zero ∧ expiration item < 5).
Proof.
  apply (cleanupCache_removes_expired keysOfRev).
  intros m. apply reverse_Permutation.
Defined.

Lemma Get_spec_witness :
  run keysOf (Get "b") (idle 9 exampleItems []) =
    Done (anyVal 2, true) (idle 9 exampleItems [])
  ∧ run keysOf (Get "z") (idle 9 exampleItems []) =
    Done (anyNil, false) (idle 9 exampleItems [])
  ∧ run keysOf (Get "a") (idle 9 exampleItems []) =
    Done (anyNil, false) (idle 9 (delete "a" exampleItems) []).
Proof.
  destruct (Get_spec keysOf "b" 9 exampleItems []) as (Hfound & _ & _).
  destruct (Get_spec keysOf "z" 9 exampleItems []) as (_ & Habsent & _).
  destruct (Get_spec keysOf "a" 9 exampleItems []) as (_ & _ & Hexpired).
  split; [| split].
  - apply Hfound.
    exists {| value := anyVal 2; expiration := time.zero |}.
    repeat split; vm_compute; reflexivity.
  - apply Habsent. vm_compute. reflexivity.
  - apply (Hexpired {| value := anyVal 1; expiration := 5 |});
      vm_compute; reflexivity.
Defined.

Lemma isExpired_spec_witness :
  run keysOf (Get "a") (idle 5 exampleItems []) =
    Done (anyVal 1, true) (idle 5 exampleItems []).
Proof.
  apply (proj2 (isExpired_spec keysOf {| value := anyVal 1; expiration := 5 |})
           "a" 5 exampleItems []).
  - vm_compute. reflexivity.
  - reflexivity.
Defined.

Lemma SetWithTTL_then_Get_witness :
  ∃ w1, run keysOf (SetWithTTL "k" (anyVal 7) 10) (idle 100 exampleItems [])
        = Done tt w1
    ∧ ∀ t m2 lines2, m2 !! "k" = items (mem w1) !! "k" →
        (t < 100 + 10 →
           run keysOf (Get "k") (idle t m2 lines2)
           = Done (anyVal 7, true) (idle t m2 lines2))
        ∧ (100 + 10 < t →
           run keysOf (Get "k") (idle t m2 lines2)
           = Done (anyNil, false) (idle t (delete "k" m2) lines2)).
Proof.
  apply (SetWithTTL_then_Get keysOf "k" (anyVal 7) 10 100 exampleItems []).
  - reflexivity.
  - reflexivity.
Defined.

Lemma SetWithTTL_replaces_witness :
  ∃ w2 : World Z,
    items (mem w2) !! "a" = Some {| value := anyVal 2; expiration := 30 |}
    ∧ run keysOf (Get "a") (later 30 w2) = Done (anyVal 2, true) (later 30 w2).
Proof.
  destruct (SetWithTTL_replaces keysOf "a" (anyVal 1) (anyVal 2) 10 7 20
              exampleItems [])
    as (_ & _ & w1 & w2 & _ & _ & Hentry & Hget).
  exists w2. split; [exact Hentry |].
  apply Hget. intros _. vm_compute. discriminate.
Defined.

Lemma SetWithTTL_nonpositive_is_Set_witness :
  (∀ w, run keysOf (SetWithTTL "a" (anyVal 4) (-3)) w
        = run keysOf (Set_ "a" (anyVal 4)) w)
  ∧ (∀ now m lines,
       run keysOf (SetWithTTL "a" (anyVal 4) (-3)) (idle now m lines) =
         Done tt (idle now (<["a" := {| value := anyVal 4;
                                        expiration := time.zero |}]> m) lines))
  ∧ (∀ w, run keysOf (isExpired {| value := anyVal 4; expiration := time.zero |}) w
          = Done false w).
Proof.
  apply (SetWithTTL_nonpositive_is_Set keysOf "a" (anyVal 4) (-3)).
  vm_compute. discriminate.
Defined.

Lemma Delete_idempotent_witness :
  run keysOf (Delete "z") (idle 9 exampleItems []) = Done tt (idle 9 exampleItems []).
Proof.
  apply (proj2 (proj2 (Delete_idempotent keysOf "z")) 9 exampleItems []).
  vm_compute. reflexivity.
Defined.

Lemma cleanupCache_skips_other_caches_witness :
  ∃ line,
    run keysOf (cleanupCache (Cache_other "*redisCache")) (idle 9 exampleItems [])
    = Done tt (with_logged (logged (idle 9 exampleItems []) ++ [line])
                 (idle 9 exampleItems []))
    ∧ mem (with_logged (logged (idle 9 exampleItems []) ++ [line])
             (idle 9 exampleItems [])) = mem (idle 9 exampleItems [])
    ∧ clock (with_logged (logged (idle 9 exampleItems []) ++ [line])
               (idle 9 exampleItems [])) = clock (idle 9 exampleItems []).
Proof.
  apply (cleanupCache_skips_other_caches keysOf (Cache_other "*redisCache")
           (idle 9 exampleItems [])).
  discriminate.
Defined.

Lemma cleanupCache_keeps_unexpired_witness :
  ∃ w', run keysOf (cleanupCache Cache_inMemoryCache) (idle 5 exampleItems [])
        = Done tt w'
    ∧ items (mem w') !! "a" = Some {| value := anyVal 1; expiration := 5 |}
    ∧ items (mem w') !! "b" = Some {| value := anyVal 2; expiration := time.zero |}
    ∧ items (mem w') !! "z" = None.
Proof.
  destruct (cleanupCache_keeps_unexpired keysOf 5 exampleItems [])
    as (w' & Hrun & Hkeep & Hnew).
  exists w'. split; [exact Hrun |]. split; [| split].
  - apply Hkeep; [vm_compute; reflexivity |].
    right. vm_compute. discriminate.
  - apply Hkeep; [vm_compute; reflexivity |].
    left. reflexivity.
  - apply Hnew. vm_compute. reflexivity.
Defined.

(** Two workers: goroutine 0 sweeps the store, goroutine 1 was handed the
    nil interface.  While goroutine 0 holds the write lock, goroutine 1
    writes its log line. *)
Lemma sweep_is_atomic_witness :
  ∃ c,
    exec keysOf
      (initial 9 exampleItems []
         [[CallStartCacheWorker Cache_inMemoryCache 2 [tickerC]];
          [CallStartCacheWorker Cache_nil 2 [tickerC]]])
      ([Ev 0 KLog; Ev 0 KNow] ++ Ev 0 KLock :: [Ev 0 KRead] ++ Ev 1 KLog :: [])
      c
    ∧ touchesStore KLog = false.
Proof.
  assert (∃ c, exec keysOf
      (initial 9 exampleItems []
         [[CallStartCacheWorker Cache_inMemoryCache 2 [tickerC]];
          [CallStartCacheWorker Cache_nil 2 [tickerC]]])
      ([Ev 0 KLog; Ev 0 KNow] ++ Ev 0 KLock :: [Ev 0 KRead] ++ Ev 1 KLog :: [])
      c) as [c Hexec].
  { eexists. unfold initial. simpl.
    eapply exec_cons; [eapply step_act_eq; reflexivity |].
    eapply exec_cons; [eapply step_act_eq; reflexivity |].
    eapply exec_cons; [eapply step_act_eq; reflexivity |].
    eapply exec_cons; [eapply step_act_eq; reflexivity |].
    eapply exec_cons; [eapply step_act_eq; reflexivity |].
    apply exec_nil. }
  exists c. split; [exact Hexec |].
  apply (proj2 (proj2 (sweep_is_atomic keysOf)) _ _ _ _ _ _
           [Ev 0 KLog; Ev 0 KNow] 0%nat [Ev 0 KRead] 1%nat KLog [] Hexec eq_refl).
  - rewrite list_elem_of_singleton. discriminate.
  - discriminate.
Defined.

(** * The further properties at concrete stores *)

Ltac example_step :=
  eapply exec_cons;
  [ eapply step_act_eq;
      [cbn; reflexivity | cbn; reflexivity | reflexivity | reflexivity]
  | cbn ].

Lemma cleanupCache_exact_witness :
  ∃ lines',
    run keysOfRev (cleanupCache Cache_inMemoryCache) (idle 5 exampleItems [])
    = Done tt (idle 5 (survivors 5 exampleItems) ([] ++ lines'))
    ∧ lines' = deletedLine <$>
                 filter (λ k, doomed 5 exampleItems k = true) (keysOfRev exampleItems)
    ∧ lines' ≡ₚ deletedLine <$>
                  filter (λ k, doomed 5 exampleItems k = true) (keysOf exampleItems)
    ∧ (∀ k, survivors 5 exampleItems !! k =
            item ← exampleItems !! k;
            if sweepable 5 item then None else Some item).
Proof.
  apply (cleanupCache_exact keysOfRev).
  intros m. apply reverse_Permutation.
Defined.

Lemma cleanupCache_nothing_expired_witness :
  run keysOf (cleanupCache Cache_inMemoryCache)
    (idle 10 {["s" := {| value := anyVal 1; expiration := 50 |}]} [])
  = Done tt (idle 10 {["s" := {| value := anyVal 1; expiration := 50 |}]} []).
Proof.
  apply (cleanupCache_nothing_expired keysOf).
  intros k item Hk. apply lookup_singleton_Some in Hk as [_ <-].
  right. vm_compute. discriminate.
Defined.

Lemma cleanupCache_idempotent_witness :
  run keysOf (cleanupCache Cache_inMemoryCache;; cleanupCache Cache_inMemoryCache)
      (idle 5 exampleItems [])
  = run keysOf (cleanupCache Cache_inMemoryCache) (idle 5 exampleItems []).
Proof.
  apply (cleanupCache_idempotent keysOf).
  intros m. reflexivity.
Defined.

Lemma cleanupCache_invisible_to_Get_witness :
  ∃ w', run keysOf (cleanupCache Cache_inMemoryCache) (idle 4 exampleItems [])
        = Done tt w'
    ∧ ∃ r w1 w2,
        run keysOf (Get "c") (idle 6 exampleItems []) = Done r w1
        ∧ run keysOf (Get "c") (later 6 w') = Done r w2.
Proof.
  apply (cleanupCache_invisible_to_Get keysOf 4 exampleItems [] "c" 6).
  vm_compute. discriminate.
Defined.

Lemma Set_then_Get_witness :
  ∃ w1, run keysOf (Set_ "k" (anyVal 7)) (idle 100 exampleItems []) = Done tt w1
    ∧ run keysOf (Get "k") (later 1000000 w1)
      = Done (anyVal 7, true) (later 1000000 w1).
Proof.
  destruct (Set_then_Get keysOf "k" (anyVal 7) 100 exampleItems [])
    as (w1 & Hset & Hget).
  exists w1. split; [exact Hset |].
  destruct w1 as [c [l its] lg].
  injection Hset as _ <- _ _.
  apply (Hget 1000000 its lg). reflexivity.
Defined.

Lemma SetWithTTL_then_Delete_witness :
  run keysOf (SetWithTTL "k" (anyVal 7) 10;; Delete "k") (idle 100 exampleItems [])
  = Done tt (idle 100 exampleItems []).
Proof.
  apply (SetWithTTL_then_Delete keysOf "k" (anyVal 7) 10 100 exampleItems []).
  vm_compute. reflexivity.
Defined.

Lemma other_keys_untouched_witness :
  ∃ w', run keysOf (Delete "a") (idle 9 exampleItems []) = Done tt w'
    ∧ items (mem w') !! "b" = exampleItems !! "b".
Proof.
  apply (other_keys_untouched keysOf "a" "b" (anyVal 0) 0 9 exampleItems []).
  discriminate.
Defined.

Lemma expiry_is_monotone_witness :
  run keysOf (Get "a") (idle 2 exampleItems [])
  = Done (anyVal 1, true) (idle 2 exampleItems []).
Proof.
  apply (proj1 (expiry_is_monotone keysOf "a" exampleItems [] 5 2
                  ltac:(vm_compute; discriminate))
           (anyVal 1) (idle 5 exampleItems [])).
  vm_compute. reflexivity.
Defined.


Lemma Get_beside_readers_witness :
  run keysOf (Get "b")
    {| clock := 9;
       mem := {| mu := {| writer := false; readers := 3 |}; items := exampleItems |};
       logged := [] |}
  = Done (anyVal 2, true)
      {| clock := 9;
         mem := {| mu := {| writer := false; readers := 3 |}; items := exampleItems |};
         logged := [] |}
  ∧ run keysOf (Get "a")
      {| clock := 9;
         mem := {| mu := {| writer := false; readers := 3 |}; items := exampleItems |};
         logged := [] |}
    = Blocked.
Proof.
  destruct (Get_beside_readers keysOf "b" 9 exampleItems [] 2) as (_ & Hfresh & _).
  destruct (Get_beside_readers keysOf "a" 9 exampleItems [] 2) as (_ & _ & Hexpired).
  split.
  - apply (Hfresh {| value := anyVal 2; expiration := time.zero |});
      vm_compute; reflexivity.
  - apply (Hexpired {| value := anyVal 1; expiration := 5 |});
      vm_compute; reflexivity.
Defined.


Lemma different_keys_commute_witness :
  run keysOf (SetWithTTL "k" (anyVal 7) 10;; Delete "a") (idle 9 exampleItems [])
  = run keysOf (Delete "a";; SetWithTTL "k" (anyVal 7) 10) (idle 9 exampleItems []).
Proof.
  apply (proj1 (proj2 (different_keys_commute keysOf "k" "a" (anyVal 7) (anyVal 0)
                         10 0 9 exampleItems [] ltac:(discriminate)))).
Defined.

Lemma mutex_is_exclusive_witness :
  ∃ c : Config Z,
    exec keysOf (initial 9 exampleItems [] [[CallDelete "a"]; [CallGet "b"]])
      [Ev 0 KLock; Ev 0 KWrite] c
    ∧ heldBy 1 [Ev 0 KLock; Ev 0 KWrite] = HNone
    ∧ mu (mem (world c)) = {| writer := true; readers := 0 |}.
Proof.
  assert (∃ c : Config Z,
    exec keysOf (initial 9 exampleItems [] [[CallDelete "a"]; [CallGet "b"]])
      [Ev 0 KLock; Ev 0 KWrite] c) as [c Hexec].
  { eexists. unfold initial. cbn.
    example_step. example_step. apply exec_nil. }
  exists c. split; [exact Hexec |].
  destruct (mutex_is_exclusive keysOf _ _ _ _ _ _ Hexec) as (Hothers & Hmu & _).
  split.
  - apply (Hothers 0%nat 1%nat); [reflexivity | discriminate].
  - apply (Hmu 0%nat). reflexivity.
Defined.

Lemma map_accessed_under_lock_witness :
  ∃ c1 c2 : Config Z,
    exec keysOf (initial 9 exampleItems [] [[CallDelete "a"]; [CallGet "b"]])
      [Ev 0 KLock] c1
    ∧ step keysOf c1 (Ev 0 KWrite) c2
    ∧ heldBy 0 [Ev 0 KLock] = HWrite.
Proof.
  assert (∃ c1 c2 : Config Z,
    exec keysOf (initial 9 exampleItems [] [[CallDelete "a"]; [CallGet "b"]])
      [Ev 0 KLock] c1
    ∧ step keysOf c1 (Ev 0 KWrite) c2) as (c1 & c2 & Hexec & Hstep).
  { eexists _, _. split.
    - unfold initial. cbn. example_step. apply exec_nil.
    - eapply step_act_eq; [cbn; reflexivity | cbn; reflexivity | reflexivity
                          | reflexivity]. }
  exists c1, c2. split; [exact Hexec |]. split; [exact Hstep |].
  apply (proj1 (map_accessed_under_lock keysOf _ _ _ _ _ _ _ _ _ Hexec Hstep)).
  reflexivity.
Defined.

Lemma readers_exclude_writers_witness :
  ∃ c : Config Z,
    exec keysOf
      (initial 9 exampleItems []
         [[CallGet "b"]; [CallStartCacheWorker Cache_nil 2 [tickerC]]])
      ([] ++ Ev 0 KRLock :: [Ev 0 KRead] ++ Ev 1 KLog :: []) c
    ∧ KLog ≠ KWrite ∧ KLog ≠ KLock.
Proof.
  assert (∃ c : Config Z,
    exec keysOf
      (initial 9 exampleItems []
         [[CallGet "b"]; [CallStartCacheWorker Cache_nil 2 [tickerC]]])
      ([] ++ Ev 0 KRLock :: [Ev 0 KRead] ++ Ev 1 KLog :: []) c) as [c Hexec].
  { eexists. unfold initial. cbn.
    example_step. example_step. example_step. apply exec_nil. }
  exists c. split; [exact Hexec |].
  apply (readers_exclude_writers keysOf _ _ _ _ _ _
           [] 0%nat [Ev 0 KRead] 1%nat KLog [] Hexec eq_refl).
  rewrite list_elem_of_singleton. discriminate.
Defined.

Lemma no_fatal_unlock_witness :
  ∃ (c : Config Z) k,
    exec keysOf (initial 9 exampleItems [] [[CallDelete "a"]])
      [Ev 0 KLock; Ev 0 KWrite] c
    ∧ pool c !! 0%nat = Some (Vis Unlock k)
    ∧ handle keysOf Unlock (world c) ≠ Fatal.
Proof.
  assert (∃ (c : Config Z) k,
    exec keysOf (initial 9 exampleItems [] [[CallDelete "a"]])
      [Ev 0 KLock; Ev 0 KWrite] c
    ∧ pool c !! 0%nat = Some (Vis Unlock k)) as (c & k & Hexec & Hlook).
  { eexists _, _. split.
    - unfold initial. cbn. example_step. example_step. apply exec_nil.
    - cbn. reflexivity. }
  exists c, k. split; [exact Hexec |]. split; [exact Hlook |].
  apply (no_fatal_unlock keysOf _ _ _ _ _ _ _ _ _ _ Hexec Hlook).
  discriminate.
Defined.

Lemma no_deadlock_witness :
  ∃ tid k c',
    step keysOf (initial 9 exampleItems [] [[CallDelete "a"]; [CallGet "b"]])
      (Ev tid k) c'.
Proof.
  apply (no_deadlock keysOf 9 exampleItems [] [[CallDelete "a"]; [CallGet "b"]] []).
  - apply exec_nil.
  - exists 0%nat, (goroutine [CallDelete "a"]). split; [reflexivity |].
    intros Hret. exact Hret.
  - intros [| [| j]] p Hp; [| | discriminate];
      injection Hp as <-; intros Hpanic; discriminate Hpanic.
Defined.

Lemma finished_unlocked_witness :
  ∃ c : Config Z,
    exec keysOf (initial 9 exampleItems [] [[CallDelete "a"]])
      [Ev 0 KLock; Ev 0 KWrite; Ev 0 KUnlock] c
    ∧ mu (mem (world c)) = unlocked.
Proof.
  assert (∃ c : Config Z,
    exec keysOf (initial 9 exampleItems [] [[CallDelete "a"]])
      [Ev 0 KLock; Ev 0 KWrite; Ev 0 KUnlock] c
    ∧ Forall returned (pool c)) as (c & Hexec & Hdone).
  { eexists. split.
    - unfold initial. cbn.
      example_step. example_step. example_step. apply exec_nil.
    - cbn. by repeat constructor. }
  exists c. split; [exact Hexec |].
  apply (finished_unlocked keysOf _ _ _ _ _ _ Hexec Hdone).
Defined.

Lemma StartCacheWorker_one_sweep_per_tick_witness :
  length (filter (λ k, k = KLock) [KLog; KNow; KLock; KRead; KUnlock; KLog]) = 1%nat
  ∧ length (filter (λ k, k = KUnlock) [KLog; KNow; KLock; KRead; KUnlock; KLog])
    = length (filter (λ k, k = KLock) [KLog; KNow; KLock; KRead; KUnlock; KLog]).
Proof.
  apply (StartCacheWorker_one_sweep_per_tick (V := Z) Cache_inMemoryCache 2
           [tickerC; stopCh; tickerC] _ tt).
  - reflexivity.
  - cbn. exists tt. eexists. split; [reflexivity |].
    exists 9. eexists. split; [reflexivity |].
    exists tt. eexists. split; [reflexivity |].
    exists []. eexists. split; [reflexivity |]. cbn.
    exists tt. eexists. split; [reflexivity |].
    exists tt. eexists. split; [reflexivity |]. done.
Defined.

Lemma Get_lazy_delete_loses_Set_witness :
  ∃ c : Config Z,
    exec keysOf (initial 9 exampleItems [] [[CallGet "a"]; [CallSet "a" (anyVal 8)]])
      [Ev 0 KRLock; Ev 0 KRead; Ev 0 KRUnlock; Ev 0 KNow;
       Ev 1 KLock; Ev 1 KWrite; Ev 1 KUnlock;
       Ev 0 KLock; Ev 0 KWrite; Ev 0 KUnlock] c
    ∧ Forall returned (pool c)
    ∧ items (mem (world c)) !! "a" = None.
Proof.
  apply (Get_lazy_delete_loses_Set keysOf "a"
           {| value := anyVal 1; expiration := 5 |} (anyVal 8) 9 exampleItems []).
  - vm_compute. reflexivity.
  - discriminate.
  - reflexivity.
Defined.
